(** * Cross-chain bridge event listener (script.py): a shallow embedding

    The Python program polls a source chain for [TokensLocked] logs,
    decodes each log, notifies a relayer over HTTP and keeps a checkpoint
    [{last_scanned_block, processed_txs}] that it writes to
    [listener_state.json].

    Layout of this development:
    - [Py]       the Python and library primitives the script relies on
                 (string slices, [str.lstrip], [int(s, base)], [HexBytes.hex]);
    - [Parser]   [EventDataParser.parse_token_locked_event];
    - [Relay]    [DestinationChainHandler.trigger_token_mint];
    - [Engine]   [BridgeEventListener] ([_load_state], [_save_state],
                 [_scan_blocks], [_process_log], [run]) and [main];
    - theorems about the scan engine, the decoder and start-up. *)

From Stdlib Require Import ZArith NArith Lia List Bool Ascii String.
From Stdlib.Strings Require Import Byte.
From stdpp Require Import base gmap sets list strings.
Import ListNotations.

Local Open Scope string_scope.
Local Open Scope list_scope.
Local Open Scope Z_scope.

(* ===================================================================== *)
(** ** Python primitives *)
(* ===================================================================== *)

Module Py.

(** Exceptions that the script raises or catches by name. *)
Inductive exn :=
| ConnectionError          (* builtin, raised by ChainConnector *)
| KeyError                 (* missing key of a dict *)
| ValueError               (* int() on a bad literal *)
| JSONDecodeError          (* json.load on a malformed file *)
| OtherException.          (* any other subclass of Exception *)

(** [s[n:]] for a constant [n >= 0]. *)
Fixpoint slice_from (n : nat) (s : string) : string :=
  match n, s with
  | O, _ => s
  | S _, EmptyString => EmptyString
  | S n', String _ s' => slice_from n' s'
  end.

(** [s[:n]] for a constant [n >= 0]. *)
Fixpoint slice_to (n : nat) (s : string) : string :=
  match n, s with
  | O, _ => EmptyString
  | S _, EmptyString => EmptyString
  | S n', String c s' => String c (slice_to n' s')
  end.

(** [s[lo:hi]] for constants [0 <= lo <= hi]; slices never raise. *)
Definition slice (lo hi : nat) (s : string) : string :=
  slice_to (hi - lo) (slice_from lo s).

Definition ascii_in (c : ascii) (chars : string) : bool :=
  existsb (Ascii.eqb c) (list_ascii_of_string chars).

(** [s.lstrip(chars)]: drops every leading character that belongs to the
    SET of characters [chars] (it does not remove a prefix). *)
Fixpoint lstrip (chars : string) (s : string) : string :=
  match s with
  | EmptyString => EmptyString
  | String c s' => if ascii_in c chars then lstrip chars s' else s
  end.

Definition digit_value (c : ascii) : option Z :=
  let n := Z.of_N (N_of_ascii c) in
  if (48 <=? n) && (n <=? 57) then Some (n - 48)          (* 0-9 *)
  else if (97 <=? n) && (n <=? 102) then Some (n - 87)    (* a-f *)
  else if (65 <=? n) && (n <=? 70) then Some (n - 55)     (* A-F *)
  else None.

Fixpoint digits_value (base acc : Z) (s : string) : option Z :=
  match s with
  | EmptyString => Some acc
  | String c s' =>
      match digit_value c with
      | Some d => if d <? base then digits_value base (base * acc + d) s'
                  else None
      | None => None
      end
  end.

(** [int(s, base)] on a string of digits: [None] stands for [ValueError]
    (the empty string and any string holding a non-digit).  The script
    only applies [int(_, 16)] to slices of [HexBytes.hex()] output after
    [lstrip('0x')], which hold nothing but hexadecimal digits, so the
    sign, blank, underscore and base-prefix forms that Python also
    accepts cannot occur there. *)
Definition int_of_digits (base : Z) (s : string) : option Z :=
  match s with
  | EmptyString => None
  | _ => digits_value base 0 s
  end.

Definition is_space (c : ascii) : bool :=
  let n := N_of_ascii c in
  ((9 <=? n) && (n <=? 13))%N || (n =? 32)%N.

Fixpoint rstrip_space (s : string) : string :=
  match s with
  | EmptyString => EmptyString
  | String c s' =>
      match rstrip_space s' with
      | EmptyString => if is_space c then EmptyString else String c EmptyString
      | r => String c r
      end
  end.

Fixpoint lstrip_space (s : string) : string :=
  match s with
  | EmptyString => EmptyString
  | String c s' => if is_space c then lstrip_space s' else s
  end.

(** [int(s)] (base ten) as [main] uses it on START_BLOCK: surrounding
    blanks are ignored and one sign is allowed; digit-group underscores
    are not modelled and count as [ValueError]. *)
Definition int (s : string) : option Z :=
  match lstrip_space (rstrip_space s) with
  | String "-" r => Z.opp <$> int_of_digits 10 r
  | String "+" r => int_of_digits 10 r
  | r => int_of_digits 10 r
  end.

(** Truth value of [Optional[str]]: [None] and [''] are falsy. *)
Definition truthy (o : option string) : bool :=
  match o with
  | None => false
  | Some EmptyString => false
  | Some _ => true
  end.

Definition nibble_char (n : N) : ascii :=
  ascii_of_N (if (n <? 10)%N then 48 + n else 87 + n)%N.

Definition byte_hex (b : byte) : string :=
  let n := Byte.to_N b in
  String (nibble_char (n / 16)) (String (nibble_char (n mod 16)) EmptyString).

Fixpoint bytes_hex (bs : list byte) : string :=
  match bs with
  | [] => EmptyString
  | b :: bs' => (byte_hex b ++ bytes_hex bs')%string
  end.

(** [HexBytes.hex()].  With hexbytes before 1.0 (web3.py 6) the result
    carries the ["0x"] prefix; from 1.0 on it does not.  The offsets in
    the script ([[26:]], [lstrip('0x')]) are written for the prefixed
    form; [prefixed] selects the library behaviour. *)
Definition hexbytes_hex (prefixed : bool) (bs : list byte) : string :=
  if prefixed then ("0x" ++ bytes_hex bs)%string else bytes_hex bs.

(** Big-endian value of a byte string. *)
Definition be_value (bs : list byte) : Z :=
  fold_left (fun acc b => 256 * acc + Z.of_N (Byte.to_N b)) bs 0.

End Py.

(* ===================================================================== *)
(** ** EventDataParser *)
(* ===================================================================== *)

Module Parser.

(** [web3.types.LogReceipt], restricted to the keys the script reads. *)
Record LogReceipt := {
  transactionHash : list byte;
  blockNumber : Z;
  topics : list (list byte);
  data : list byte
}.

(** The dict returned by [parse_token_locked_event]. *)
Record ParsedEvent := {
  ev_transactionHash : string;
  ev_blockNumber : Z;
  ev_user : string;
  ev_token : string;
  ev_amount : Z;
  ev_destinationChainId : Z
}.

(** [parse_token_locked_event]: [None] is the [except (IndexError,
    ValueError)] branch.  [topics !! 1] and [topics !! 2] raise
    [IndexError] out of range; the two [int(_, 16)] raise [ValueError]. *)
Definition parse_token_locked_event (prefixed : bool) (log : LogReceipt)
  : option ParsedEvent :=
  let tx_hash := Py.hexbytes_hex prefixed (transactionHash log) in
  let block_number := blockNumber log in
  match topics log !! 1%nat with
  | None => None
  | Some topic1 =>
    let user_address := ("0x" ++ Py.slice_from 26 (Py.hexbytes_hex prefixed topic1))%string in
    match topics log !! 2%nat with
    | None => None
    | Some topic2 =>
      let token_address := ("0x" ++ Py.slice_from 26 (Py.hexbytes_hex prefixed topic2))%string in
      let data := Py.lstrip "0x" (Py.hexbytes_hex prefixed (data log)) in
      match Py.int_of_digits 16 (Py.slice 0 64 data) with
      | None => None
      | Some amount_raw =>
        match Py.int_of_digits 16 (Py.slice 64 128 data) with
        | None => None
        | Some destination_chain_id =>
          Some {| ev_transactionHash := tx_hash;
                  ev_blockNumber := block_number;
                  ev_user := user_address;
                  ev_token := token_address;
                  ev_amount := amount_raw;
                  ev_destinationChainId := destination_chain_id |}
        end
      end
    end
  end.

End Parser.

(* ===================================================================== *)
(** ** DestinationChainHandler *)
(* ===================================================================== *)

Module Relay.

(** JSON body of the POST sent to the relayer. *)
Record Payload := {
  sourceTransactionHash : string;
  recipient : string;
  tokenAddress : string;
  amount : Z;
  targetChainId : Z
}.

Definition payload_of (event_data : Parser.ParsedEvent) : Payload :=
  {| sourceTransactionHash := Parser.ev_transactionHash event_data;
     recipient := Parser.ev_user event_data;
     tokenAddress := Parser.ev_token event_data;
     amount := Parser.ev_amount event_data;
     targetChainId := Parser.ev_destinationChainId event_data |}.

(** What [session.post(..., timeout=10)] yields: a response with a status
    code and a body that [response.json()] can or cannot decode, or a
    [requests.exceptions.RequestException] (time-out, refused connection,
    ...). *)
Inductive HttpOutcome :=
| Responded (status_code : Z) (json_body : bool)
| RequestFailed.

(** The boolean [trigger_token_mint] returns for an outcome of the POST:
    [raise_for_status] turns 4xx and 5xx into an [HTTPError], which the
    [except RequestException] branch maps to [False]; 200 and 202 give
    [True] once the success message, which calls [response.json()], has
    been built (its [requests.exceptions.JSONDecodeError] is a
    [RequestException] too, requests 2.27 and later); every other status
    gives [False]. *)
Definition acknowledged (o : HttpOutcome) : bool :=
  match o with
  | RequestFailed => false
  | Responded status_code json_body =>
      if (400 <=? status_code) && (status_code <? 600) then false
      else if (status_code =? 200) || (status_code =? 202) then json_body
      else false
  end.

End Relay.

(* ===================================================================== *)
(** ** BridgeEventListener and main *)
(* ===================================================================== *)

Module Engine.

Import Parser.

Definition CONFIRMATION_BLOCKS : Z := 12.

(** The [config] dict.  [rpc_url] and [bridge_contract_address] come from
    [os.getenv] without a default and may be Python's [None];
    [start_block = None] means the key is absent from the dict. *)
Record Config := {
  rpc_url : option string;
  bridge_contract_address : option string;
  relayer_api_endpoint : string;
  event_topic_hash : string;
  start_block : option Z
}.

(** The JSON object of [listener_state.json] and the [self.state] dict:
    the two keys the script reads, a key being [None] when absent. *)
Record StateDict := {
  last_scanned_block : option Z;
  processed_txs_key : option (list string)
}.

Inductive StateFile :=
| FileAbsent                       (* os.path.exists is False *)
| FileMalformed                    (* json.load raises *)
| FileObject (content : StateDict).

(** Calls that leave the process, in the order they are made. *)
Inductive Call :=
| Connect (url : option string)
| BlockNumber
| GetLogs (from_block to_block : Z) (address : option string) (topics : list string)
| Post (endpoint : string) (payload : Relay.Payload) (outcome : Relay.HttpOutcome)
| WriteState (content : StateDict).

Inductive HeightAnswer :=
| Height (h : Z)
| ProviderConnectionError          (* web3.exceptions.ProviderConnectionError *)
| HeightOtherError.                (* any other exception of the provider *)

(** The node, the relayer and the installed hexbytes, as the process sees
    them.  Each answer may depend on how many calls were made before it
    (the first argument), so answers can change from call to call. *)
Record World := {
  hex_prefixed : bool;
  is_connected : bool;
  block_number : nat -> HeightAnswer;
  eth_get_logs : nat -> Z -> Z -> option string -> list string -> option (list LogReceipt);
  post : nat -> string -> Relay.Payload -> Relay.HttpOutcome
}.

(** A [BridgeEventListener] object: [self.config], [self.state],
    [self.processed_txs]. *)
Record Listener := {
  config : Config;
  state : StateDict;
  processed_txs : gset string
}.

(** The process together with the state file and the calls made so far. *)
Record Machine := {
  listener : Listener;
  file : StateFile;
  calls : list Call
}.

Definition record_call (c : Call) (m : Machine) : Machine :=
  {| listener := listener m; file := file m; calls := calls m ++ [c] |}.

Definition with_listener (l : Listener) (m : Machine) : Machine :=
  {| listener := l; file := file m; calls := calls m |}.

(** [ChainConnector.get_latest_block_number]. *)
Definition get_latest_block_number (w : World) (m : Machine) : (Py.exn + Z) * Machine :=
  let m' := record_call BlockNumber m in
  match block_number w (length (calls m)) with
  | Height h => (inr h, m')
  | ProviderConnectionError => (inl Py.ConnectionError, m')
  | HeightOtherError => (inl Py.OtherException, m')
  end.

(** [ChainConnector.get_logs]: any exception of [w3.eth.get_logs] is
    logged and replaced by the empty list. *)
Definition get_logs (w : World) (from_block to_block : Z) (address : option string)
    (topics : list string) (m : Machine) : list LogReceipt * Machine :=
  let m' := record_call (GetLogs from_block to_block address topics) m in
  match eth_get_logs w (length (calls m)) from_block to_block address topics with
  | Some logs => (logs, m')
  | None => ([], m')
  end.

(** [DestinationChainHandler.trigger_token_mint]. *)
Definition trigger_token_mint (w : World) (event_data : ParsedEvent) (m : Machine)
  : bool * Machine :=
  let endpoint := relayer_api_endpoint (config (listener m)) in
  let payload := Relay.payload_of event_data in
  let outcome := post w (length (calls m)) endpoint payload in
  (Relay.acknowledged outcome, record_call (Post endpoint payload outcome) m).

(** [BridgeEventListener._process_log]. *)
Definition _process_log (w : World) (log : LogReceipt) (m : Machine) : Machine :=
  let tx_hash := Py.hexbytes_hex (hex_prefixed w) (transactionHash log) in
  if decide (tx_hash ∈ processed_txs (listener m)) then m
  else
    match parse_token_locked_event (hex_prefixed w) log with
    | None => m
    | Some parsed_event =>
        let '(success, m1) := trigger_token_mint w parsed_event m in
        if success then
          let l := listener m1 in
          with_listener {| config := config l; state := state l;
                           processed_txs := {[tx_hash]} ∪ processed_txs l |} m1
        else m1
    end.

(** [for log in logs: self._process_log(log)]. *)
Fixpoint process_logs (w : World) (logs : list LogReceipt) (m : Machine) : Machine :=
  match logs with
  | [] => m
  | log :: rest => process_logs w rest (_process_log w log m)
  end.

(** [self.state['last_scanned_block'] = to_block]. *)
Definition set_last_scanned_block (to_block : Z) (m : Machine) : Machine :=
  let l := listener m in
  with_listener
    {| config := config l;
       state := {| last_scanned_block := Some to_block;
                   processed_txs_key := processed_txs_key (state l) |};
       processed_txs := processed_txs l |} m.

(** [BridgeEventListener._scan_blocks]: one cycle.  Both [except]
    branches only log, so an exception leaves the listener as it was when
    it was raised. *)
Definition _scan_blocks (w : World) (m : Machine) : Machine :=
  let '(latest, m1) := get_latest_block_number w m in
  match latest with
  | inl _ => m1
  | inr latest_block =>
    match last_scanned_block (state (listener m1)) with
    | None => m1                                   (* KeyError *)
    | Some last =>
      let from_block := last + 1 in
      let to_block := latest_block - CONFIRMATION_BLOCKS in
      if from_block >? to_block then m1
      else
        let '(logs, m2) :=
          get_logs w from_block to_block
                   (bridge_contract_address (config (listener m1)))
                   [event_topic_hash (config (listener m1))] m1 in
        let m3 := process_logs w logs m2 in
        set_last_scanned_block to_block m3
    end
  end.

(** [BridgeEventListener._save_state]; the [KeyError] of a state dict
    without [last_scanned_block] is raised before the file is opened. *)
Definition _save_state (m : Machine) : option Py.exn * Machine :=
  match last_scanned_block (state (listener m)) with
  | None => (Some Py.KeyError, m)
  | Some last =>
      let state_to_save :=
        {| last_scanned_block := Some last;
           processed_txs_key := Some (elements (processed_txs (listener m))) |} in
      (None, {| listener := listener m;
                file := FileObject state_to_save;
                calls := calls m ++ [WriteState state_to_save] |})
  end.

(** The [while True] loop of [run], cut after [cycles] iterations. *)
Fixpoint scan_cycles (w : World) (cycles : nat) (m : Machine) : Machine :=
  match cycles with
  | O => m
  | S k => scan_cycles w k (_scan_blocks w m)
  end.

(** [BridgeEventListener.run] when the interrupt arrives during the sleep
    that follows the [cycles]-th cycle: the [finally] clause saves the
    state.  Without an interrupt the loop does not end. *)
Definition run (w : World) (cycles : nat) (m : Machine) : option Py.exn * Machine :=
  _save_state (scan_cycles w cycles m).

(** [BridgeEventListener._load_state].  The default argument of
    [config.get] is evaluated before the lookup, so the height is queried
    on every cold start. *)
Definition _load_state (w : World) (cfg : Config) (m : Machine)
  : (Py.exn + StateDict) * Machine :=
  match file m with
  | FileObject content => (inr content, m)
  | FileMalformed => (inl Py.JSONDecodeError, m)
  | FileAbsent =>
      let '(latest, m1) := get_latest_block_number w m in
      match latest with
      | inl e => (inl e, m1)
      | inr latest_block =>
          let start := match start_block cfg with
                       | Some b => b
                       | None => latest_block
                       end in
          (inr {| last_scanned_block := Some start; processed_txs_key := Some [] |}, m1)
      end
  end.

(** [BridgeEventListener.__init__], from a process that has made no call
    yet; [inl] is an exception that escapes the constructor. *)
Definition init (w : World) (cfg : Config) (f : StateFile) : Py.exn + Machine :=
  let m0 := {| listener := {| config := cfg;
                              state := {| last_scanned_block := None;
                                          processed_txs_key := None |};
                              processed_txs := ∅ |};
               file := f;
               calls := [Connect (rpc_url cfg)] |} in
  if negb (is_connected w) then inl Py.ConnectionError
  else
    let '(loaded, m1) := _load_state w cfg m0 in
    match loaded with
    | inl e => inl e
    | inr st =>
        inr (with_listener
               {| config := cfg;
                  state := st;
                  processed_txs :=
                    list_to_set (match processed_txs_key st with
                                 | Some txs => txs
                                 | None => []
                                 end) |} m1)
    end.

Inductive MainResult :=
| ConfigRejected                             (* "Missing critical ..." and return *)
| Uncaught (e : Py.exn)                      (* exception before the loop *)
| Looped (booted : Machine) (final : option Py.exn * Machine).

Definition getenv (env : gmap string string) (key : string) : option string :=
  env !! key.

Definition getenv_default (env : gmap string string) (key dflt : string) : string :=
  match env !! key with
  | Some v => v
  | None => dflt
  end.

(** [main], for the process environment [env]. *)
Definition main (env : gmap string string) (w : World) (f : StateFile) (cycles : nat)
  : MainResult :=
  let TOKENS_LOCKED_EVENT_HASH := getenv_default env "TOKENS_LOCKED_EVENT_HASH" "0x123..." in
  match Py.int (getenv_default env "START_BLOCK" "0") with
  | None => Uncaught Py.ValueError
  | Some sb =>
      let cfg :=
        {| rpc_url := getenv env "SOURCE_CHAIN_RPC_URL";
           bridge_contract_address := getenv env "BRIDGE_CONTRACT_ADDRESS";
           relayer_api_endpoint :=
             getenv_default env "RELAYER_API_ENDPOINT" "https://api.example-relayer.com/submit";
           event_topic_hash := TOKENS_LOCKED_EVENT_HASH;
           start_block := Some sb |} in
      if negb (Py.truthy (rpc_url cfg) && Py.truthy (bridge_contract_address cfg)
               && Py.truthy (Some (event_topic_hash cfg)))
      then ConfigRejected
      else
        match init w cfg f with
        | inl e => Uncaught e
        | inr m => Looped m (run w cycles m)
        end
  end.

End Engine.

(* ===================================================================== *)
(** ** Observations on machines and calls *)
(* ===================================================================== *)

Import Engine.

(** The in-memory checkpoint. *)
Definition lsb (m : Machine) : option Z := last_scanned_block (state (listener m)).
Definition seen (m : Machine) : gset string := processed_txs (listener m).

(** The calls made on the way from [m] to [m']. *)
Definition new_calls (m m' : Machine) : list Call :=
  drop (length (calls m)) (calls m').

Definition is_post (c : Call) : bool :=
  match c with Post _ _ _ => true | _ => false end.

Definition is_write (c : Call) : bool :=
  match c with WriteState _ => true | _ => false end.

(** The transaction id of a POST, and of a POST that
    [trigger_token_mint] reported as a success. *)
Definition posted_tx (c : Call) : option string :=
  match c with
  | Post _ p _ => Some (Relay.sourceTransactionHash p)
  | _ => None
  end.

Definition acked_tx (c : Call) : option string :=
  match c with
  | Post _ p o => if Relay.acknowledged o then Some (Relay.sourceTransactionHash p) else None
  | _ => None
  end.

(** Number of POSTs made for [tx]. *)
Definition submissions (tx : string) (cs : list Call) : nat :=
  length (filter (fun c => posted_tx c = Some tx) cs).

(** No POST for a transaction id follows an acknowledged POST for it. *)
Definition no_resubmission (cs : list Call) : Prop :=
  forall before c after tx,
    cs = before ++ c :: after ->
    acked_tx c = Some tx ->
    forall c', c' ∈ after -> posted_tx c' <> Some tx.

(** Order on checkpoints: the block does not decrease (and the key does
    not appear or vanish), the set does not lose elements. *)
Definition lsb_le (a b : option Z) : Prop :=
  match a, b with
  | Some x, Some y => x <= y
  | None, None => True
  | _, _ => False
  end.

Definition checkpoint_le (m m' : Machine) : Prop :=
  lsb_le (lsb m) (lsb m') /\ seen m ⊆ seen m'.

(** The state file holds the in-memory checkpoint. *)
Definition checkpoint_on_disk (m : Machine) : Prop :=
  exists last txs,
    file m = FileObject {| last_scanned_block := Some last;
                           processed_txs_key := Some txs |} /\
    lsb m = Some last /\
    list_to_set txs = seen m.

(** What the deduplication guard maintains: every acknowledged
    transaction id is in [processed_txs], no POST for an id follows its
    acknowledgement, and no POST is made for an id of [old]. *)
Definition dedup_inv (old : gset string) (m : Machine) : Prop :=
  (forall c tx, c ∈ calls m -> acked_tx c = Some tx -> tx ∈ seen m) /\
  no_resubmission (calls m) /\
  old ⊆ seen m /\
  (forall c tx, c ∈ calls m -> posted_tx c = Some tx -> tx ∉ old).

(** The part of a machine that the loop over the logs leaves alone. *)
Definition same_frame (m m' : Machine) : Prop :=
  file m' = file m /\
  config (listener m') = config (listener m) /\
  state (listener m') = state (listener m).

(** Two machines with the same configuration, the same in-memory
    checkpoint and the same calls so far.  They may differ in the
    [processed_txs] key of the state dict, which nothing reads after
    [__init__], and in the state file, which nothing reads after
    [_load_state]. *)
Definition agree (m m' : Machine) : Prop :=
  config (listener m) = config (listener m') /\
  lsb m = lsb m' /\
  seen m = seen m' /\
  calls m = calls m'.

(** The block ranges of the log requests among some calls, in order. *)
Definition requested_range (c : Call) : option (Z * Z) :=
  match c with
  | GetLogs from_block to_block _ _ => Some (from_block, to_block)
  | _ => None
  end.

Definition requested_ranges (cs : list Call) : list (Z * Z) := omap requested_range cs.

(** Non-empty ranges that follow each other without gap or overlap, the
    first one starting right after block [b]. *)
Fixpoint contiguous_from (b : Z) (rs : list (Z * Z)) : Prop :=
  match rs with
  | [] => True
  | (f, t) :: rest => f = b + 1 /\ f <= t /\ contiguous_from t rest
  end.

(** The end of the last range, or [b] when there is none. *)
Definition last_block (b : Z) (rs : list (Z * Z)) : Z :=
  fold_left (fun _ r => r.2) rs b.

(** [m] after [n] more height queries and nothing else. *)
Definition after_height_queries (n : nat) (m : Machine) : Machine :=
  {| listener := listener m; file := file m; calls := calls m ++ repeat BlockNumber n |}.

(** A call that a cycle may make under configuration [cfg]: a height
    query, a log request for the configured contract and topic, or a
    POST to the configured relayer. *)
Definition addressed_by (cfg : Config) (c : Call) : Prop :=
  match c with
  | BlockNumber => True
  | GetLogs _ _ address topics =>
      address = bridge_contract_address cfg /\ topics = [event_topic_hash cfg]
  | Post endpoint _ _ => endpoint = relayer_api_endpoint cfg
  | Connect _ | WriteState _ => False
  end.

Definition is_height_query (c : Call) : bool :=
  match c with BlockNumber => true | _ => false end.

(** Hexadecimal digits as numbers: the digits of a byte string, the
    string that spells a list of digits, its value in base 16, and the
    list without its leading zeros. *)
Definition nibbles (bs : list byte) : list N :=
  flat_map (fun b => [Byte.to_N b / 16; Byte.to_N b mod 16]%N) bs.

Definition digits_string (ns : list N) : string :=
  fold_right (fun n s => String (Py.nibble_char n) s) EmptyString ns.

Definition digits_val (ns : list N) : Z :=
  fold_left (fun a n => 16 * a + Z.of_N n) ns 0.

Fixpoint strip_zeros (ns : list N) : list N :=
  match ns with
  | [] => []
  | n :: rest => if (n =? 0)%N then strip_zeros rest else ns
  end.

Definition tx_of (w : World) (log : Parser.LogReceipt) : string :=
  Py.hexbytes_hex (hex_prefixed w) (Parser.transactionHash log).

(** The effect of [_process_log] on one log: either nothing happens
    (duplicate or undecodable log), or exactly one POST is made. *)
Inductive log_step (w : World) (log : Parser.LogReceipt) (m : Machine) : Machine -> Prop :=
| log_skipped : log_step w log m m
| log_posted ev o m' :
    tx_of w log ∉ seen m ->
    Parser.parse_token_locked_event (hex_prefixed w) log = Some ev ->
    o = post w (length (calls m)) (relayer_api_endpoint (config (listener m)))
             (Relay.payload_of ev) ->
    calls m' = calls m ++ [Post (relayer_api_endpoint (config (listener m)))
                                (Relay.payload_of ev) o] ->
    file m' = file m ->
    config (listener m') = config (listener m) ->
    state (listener m') = state (listener m) ->
    seen m' = (if Relay.acknowledged o then {[tx_of w log]} ∪ seen m else seen m) ->
    log_step w log m m'.

(** The three ways a cycle can go. *)
Inductive cycle (w : World) (m : Machine) : Machine -> Prop :=
| cycle_aborted :
    (* the height query raised, or the state dict has no checkpoint key *)
    (forall h, block_number w (length (calls m)) = Height h -> lsb m = None) ->
    cycle w m (record_call BlockNumber m)
| cycle_idle h last :
    block_number w (length (calls m)) = Height h ->
    lsb m = Some last ->
    last + 1 > h - CONFIRMATION_BLOCKS ->
    cycle w m (record_call BlockNumber m)
| cycle_scanned h last logs m2 :
    block_number w (length (calls m)) = Height h ->
    lsb m = Some last ->
    last + 1 <= h - CONFIRMATION_BLOCKS ->
    get_logs w (last + 1) (h - CONFIRMATION_BLOCKS)
             (bridge_contract_address (config (listener m)))
             [event_topic_hash (config (listener m))]
             (record_call BlockNumber m) = (logs, m2) ->
    cycle w m (set_last_scanned_block (h - CONFIRMATION_BLOCKS) (process_logs w logs m2)).

(* ===================================================================== *)
(** ** Sample data *)
(* ===================================================================== *)

Module Fixtures.

Definition byte_of_Z (z : Z) : byte :=
  match Byte.of_N (Z.to_N (z mod 256)) with
  | Some b => b
  | None => Byte.x00
  end.

Fixpoint be_bytes (len : nat) (z : Z) : list byte :=
  match len with
  | O => []
  | S len' => be_bytes len' (z / 256) ++ [byte_of_Z z]
  end.

(** A 32-byte big-endian word holding [z]. *)
Definition word32 (z : Z) : list byte := be_bytes 32 z.

(** A well-formed [TokensLocked] log of transaction [tx] in block [blk]:
    three 32-byte topics and two 32-byte data words. *)
Definition locked_log (tx blk amount chain : Z) : Parser.LogReceipt :=
  {| Parser.transactionHash := word32 tx;
     Parser.blockNumber := blk;
     Parser.topics := [word32 0x70c3;
                       word32 0x1111111111111111111111111111111111111111;
                       word32 0x2222222222222222222222222222222222222222];
     Parser.data := word32 amount ++ word32 chain |}.

Definition cfg0 : Config :=
  {| rpc_url := Some "http://node:8545";
     bridge_contract_address := Some "0xb01d9e";
     relayer_api_endpoint := "https://relayer.test/submit";
     event_topic_hash := "0x70c3";
     start_block := Some 50 |}.

(** A listener whose checkpoint is [last], with nothing processed, no
    state file and no call made. *)
Definition machine_at (last : Z) : Machine :=
  {| listener := {| config := cfg0;
                    state := {| last_scanned_block := Some last;
                                processed_txs_key := Some [] |};
                    processed_txs := ∅ |};
     file := FileAbsent;
     calls := [] |}.

(** The logs of [chain] whose block lies in the requested range. *)
Definition logs_in_range (chain : list Parser.LogReceipt) (from_block to_block : Z)
  : list Parser.LogReceipt :=
  List.filter (fun log => (from_block <=? Parser.blockNumber log)
                          && (Parser.blockNumber log <=? to_block)) chain.

(** A reachable node at height [height k] when asked by the [k]-th call,
    serving the logs of [chain], and a relayer that answers the [k]-th
    call with [relay k]. *)
Definition steady_world (height : nat -> Z) (chain : list Parser.LogReceipt)
    (relay : nat -> Relay.HttpOutcome) : World :=
  {| hex_prefixed := true;
     is_connected := true;
     block_number := fun k => Height (height k);
     eth_get_logs := fun _ f t _ _ => Some (logs_in_range chain f t);
     post := fun k _ _ => relay k |}.

(** The same node, except that every [eth_getLogs] request fails. *)
Definition failing_fetch_world (height : nat -> Z) : World :=
  {| hex_prefixed := true;
     is_connected := true;
     block_number := fun k => Height (height k);
     eth_get_logs := fun _ _ _ _ _ => None;
     post := fun _ _ _ => Relay.Responded 200 true |}.

Definition env_of (l : list (string * string)) : gmap string string := list_to_map l.

(** A node with one [TokensLocked] log in block 60 whose height grows
    with every call, and a relayer that answers 500 to the first
    submission and 200 to any later one. *)
Definition flaky_relay_world : World :=
  steady_world (fun k => 100 + Z.of_nat k)
               [locked_log 0xabcdef 60 (2 ^ 255) 5]
               (fun k => if (k =? 2)%nat then Relay.Responded 500 false else Relay.Responded 200 true).

(** Two logs of one transaction in the range, and a relayer that answers
    500 to the first submission only. *)
Definition duplicate_log_world : World :=
  steady_world (fun _ => 100)
               [locked_log 0xabcdef 60 (2 ^ 255) 5; locked_log 0xabcdef 61 (2 ^ 255) 5]
               (fun k => if (k =? 2)%nat then Relay.Responded 500 false else Relay.Responded 200 true).

(** An environment with the two variables that have no default. *)
Definition env_without_topic : gmap string string :=
  env_of [("SOURCE_CHAIN_RPC_URL", "http://node:8545");
          ("BRIDGE_CONTRACT_ADDRESS", "0xb01d9e")].

(** An environment with every variable but START_BLOCK. *)
Definition env_without_start_block : gmap string string :=
  env_of [("SOURCE_CHAIN_RPC_URL", "http://node:8545");
          ("BRIDGE_CONTRACT_ADDRESS", "0xb01d9e");
          ("TOKENS_LOCKED_EVENT_HASH", "0x70c3")].

End Fixtures.

Import Fixtures.

(* ===================================================================== *)
(** ** What one log and one cycle change *)
(* ===================================================================== *)

Lemma parse_transactionHash prefixed log ev :
  Parser.parse_token_locked_event prefixed log = Some ev ->
  Parser.ev_transactionHash ev = Py.hexbytes_hex prefixed (Parser.transactionHash log).
Proof.
  unfold Parser.parse_token_locked_event.
  repeat case_match; try discriminate.
  intros [= <-]. reflexivity.
Qed.

Lemma new_calls_app m m' ext : calls m' = calls m ++ ext -> new_calls m m' = ext.
Proof. unfold new_calls. intros ->. apply drop_app_length. Qed.

Section Steps.

Context (w : World).

Lemma _process_log_step log m : log_step w log m (_process_log w log m).
Proof.
  unfold _process_log.
  destruct (decide _) as [Hin|Hnin]; [constructor|].
  destruct (Parser.parse_token_locked_event _ _) as [ev|] eqn:Hp; [|constructor].
  unfold trigger_token_mint.
  set (o := post w _ _ _).
  eapply (log_posted w log m ev o); try done.
  all: destruct (Relay.acknowledged o) eqn:Ha; try done.
  all: unfold seen; simpl; by rewrite ?Ha.
Qed.

(** Nothing but [_process_log] runs between the log fetch and the
    checkpoint update, so the loop over the logs inherits every property
    that is reflexive, transitive and holds of one [log_step]. *)
Lemma process_logs_ind (R : Machine -> Machine -> Prop) :
  (forall m, R m m) ->
  (forall m1 m2 m3, R m1 m2 -> R m2 m3 -> R m1 m3) ->
  (forall log m m', log_step w log m m' -> R m m') ->
  forall logs m, R m (process_logs w logs m).
Proof.
  intros Hrefl Htrans Hstep logs.
  induction logs as [|log rest IH]; intros m; simpl; [apply Hrefl|].
  eapply Htrans; [|apply IH].
  apply (Hstep log), _process_log_step.
Qed.

Lemma process_logs_frame logs m : same_frame m (process_logs w logs m).
Proof.
  apply process_logs_ind; unfold same_frame.
  - done.
  - intros ??? (? & ? & ?) (? & ? & ?). repeat split; congruence.
  - intros ??? []; done.
Qed.

Lemma process_logs_seen logs m : seen m ⊆ seen (process_logs w logs m).
Proof.
  apply (process_logs_ind (fun a b => seen a ⊆ seen b)).
  - done.
  - intros ??? H1 H2. by etrans.
  - intros log a b0 [|ev o b Hn Hp Ho Hc Hf Hcfg Hst Hs]; [done|].
    rewrite Hs. destruct (Relay.acknowledged o); [apply union_subseteq_r | done].
Qed.

(** [_process_log] only appends POSTs to the calls. *)
Lemma process_logs_calls logs m :
  exists posts, calls (process_logs w logs m) = calls m ++ posts /\
                forallb is_post posts = true.
Proof.
  apply (process_logs_ind
           (fun a b => exists posts, calls b = calls a ++ posts /\
                                     forallb is_post posts = true)).
  - intros a. exists []. by rewrite app_nil_r.
  - intros a b c (p1 & -> & H1) (p2 & -> & H2).
    exists (p1 ++ p2). rewrite app_assoc, forallb_app, H1, H2. done.
  - intros log a b0 [|ev o b Hn Hp Ho Hc Hf Hcfg Hst Hs];
      [exists []; by rewrite app_nil_r|].
    eexists. split; [exact Hc|]. done.
Qed.

Lemma _scan_blocks_cycle m : cycle w m (_scan_blocks w m).
Proof.
  unfold _scan_blocks, get_latest_block_number.
  destruct (block_number w (length (calls m))) as [h| |] eqn:Hh;
    try (apply cycle_aborted; intros ? Heq; rewrite Hh in Heq; discriminate).
  cbn [listener record_call].
  destruct (last_scanned_block (state (listener m))) as [last|] eqn:Hl;
    [|by apply cycle_aborted].
  destruct (last + 1 >? h - CONFIRMATION_BLOCKS) eqn:Hcmp.
  - apply (cycle_idle w m h last); [done..|lia].
  - destruct (get_logs _ _ _ _ _ _) as [logs m2] eqn:Hg.
    apply (cycle_scanned w m h last logs m2); [done..|lia|done].
Qed.

Lemma get_logs_machine f t a tp m logs m2 :
  get_logs w f t a tp m = (logs, m2) -> m2 = record_call (GetLogs f t a tp) m.
Proof. unfold get_logs. case_match; by intros [= _ <-]. Qed.

End Steps.

(* ===================================================================== *)
(** ** Hexadecimal strings and slices *)
(* ===================================================================== *)

Lemma byte_hex_app b s :
  (Py.byte_hex b ++ s)%string =
  String (Py.nibble_char (Byte.to_N b / 16))
         (String (Py.nibble_char (Byte.to_N b mod 16)) s).
Proof. reflexivity. Qed.

Lemma bytes_hex_cons b bs :
  Py.bytes_hex (b :: bs) =
  String (Py.nibble_char (Byte.to_N b / 16))
         (String (Py.nibble_char (Byte.to_N b mod 16)) (Py.bytes_hex bs)).
Proof. reflexivity. Qed.

(** Dropping [2 * n] digits drops [n] bytes. *)
Lemma slice_from_bytes_hex n :
  forall bs, Py.slice_from (2 * n) (Py.bytes_hex bs) = Py.bytes_hex (drop n bs).
Proof.
  induction n as [|n IH]; intros bs; [done|].
  replace (2 * S n)%nat with (S (S (2 * n))) by lia.
  destruct bs as [|b bs]; [done|].
  rewrite bytes_hex_cons. cbn [Py.slice_from drop]. apply IH.
Qed.

(** Keeping the digits of a prefix keeps its bytes. *)
Lemma slice_to_bytes_hex bs1 bs2 :
  Py.slice_to (2 * length bs1) (Py.bytes_hex (bs1 ++ bs2)) = Py.bytes_hex bs1.
Proof.
  induction bs1 as [|b bs1 IH]; [done|].
  cbn [length]. replace (2 * S (length bs1))%nat with (S (S (2 * length bs1))) by lia.
  rewrite <- app_comm_cons, !bytes_hex_cons. cbn [Py.slice_to]. by rewrite IH.
Qed.

Lemma digit_value_nibble n :
  (n < 16)%N -> Py.digit_value (Py.nibble_char n) = Some (Z.of_N n).
Proof.
  intros Hn. destruct n as [|p]; [reflexivity|].
  do 4 (try destruct p as [p|p|]); try reflexivity; exfalso; lia.
Qed.

Lemma byte_to_N_bound b : (Byte.to_N b < 256)%N.
Proof. by destruct b. Qed.

(** Two digits read in base 16 are one byte read in base 256. *)
Lemma digits_value_byte b acc s :
  Py.digits_value 16 acc (Py.byte_hex b ++ s) =
  Py.digits_value 16 (256 * acc + Z.of_N (Byte.to_N b)) s.
Proof.
  rewrite byte_hex_app.
  pose proof (byte_to_N_bound b) as Hb.
  set (n := Byte.to_N b) in *.
  assert (Hhi : (n / 16 < 16)%N) by (apply N.Div0.div_lt_upper_bound; lia).
  assert (Hlo : (n mod 16 < 16)%N) by (apply N.mod_lt; lia).
  cbn [Py.digits_value].
  rewrite (digit_value_nibble _ Hhi), (digit_value_nibble _ Hlo).
  replace (Z.of_N (n / 16) <? 16) with true by (symmetry; apply Z.ltb_lt; lia).
  replace (Z.of_N (n mod 16) <? 16) with true by (symmetry; apply Z.ltb_lt; lia).
  f_equal.
  pose proof (N.div_mod n 16 ltac:(lia)) as Hdm.
  lia.
Qed.

Lemma digits_value_bytes_hex bs :
  forall acc,
    Py.digits_value 16 acc (Py.bytes_hex bs) =
    Some (fold_left (fun a b => 256 * a + Z.of_N (Byte.to_N b)) bs acc).
Proof.
  induction bs as [|b bs IH]; intros acc; [done|].
  cbn [Py.bytes_hex fold_left]. by rewrite digits_value_byte, IH.
Qed.

(** [int(h, 16)] of the digits of a non-empty byte string is its
    big-endian value. *)
Lemma int_of_digits_bytes_hex bs :
  bs <> [] -> Py.int_of_digits 16 (Py.bytes_hex bs) = Some (Py.be_value bs).
Proof.
  intros Hne. destruct bs as [|b bs]; [done|].
  unfold Py.int_of_digits. rewrite bytes_hex_cons, <- bytes_hex_cons.
  apply digits_value_bytes_hex.
Qed.

(** [lstrip('0x')] removes just the prefix when the first digit of the
    payload is not a zero. *)
Lemma lstrip_prefix_only b bs :
  (16 <= Byte.to_N b)%N ->
  Py.lstrip "0x" (Py.hexbytes_hex true (b :: bs)) = Py.bytes_hex (b :: bs).
Proof.
  intros Hb. unfold Py.hexbytes_hex. rewrite bytes_hex_cons.
  destruct b; try (exfalso; revert Hb; cbn; lia); reflexivity.
Qed.

(** X3.  What the decoder computes on a well-formed log when
    [HexBytes.hex] is prefixed and the amount word starts with a non-zero
    digit: the lower 20 bytes of the two topics and the big-endian values
    of the two data words. *)
Lemma decoder_on_full_width_amount log t0 t1 t2 rest b w1 w2 :
  Parser.topics log = t0 :: t1 :: t2 :: rest ->
  length t1 = 32%nat -> length t2 = 32%nat ->
  Parser.data log = (b :: w1) ++ w2 ->
  length (b :: w1) = 32%nat -> length w2 = 32%nat ->
  (16 <= Byte.to_N b)%N ->
  Parser.parse_token_locked_event true log =
  Some {| Parser.ev_transactionHash := Py.hexbytes_hex true (Parser.transactionHash log);
          Parser.ev_blockNumber := Parser.blockNumber log;
          Parser.ev_user := ("0x" ++ Py.bytes_hex (drop 12 t1))%string;
          Parser.ev_token := ("0x" ++ Py.bytes_hex (drop 12 t2))%string;
          Parser.ev_amount := Py.be_value (b :: w1);
          Parser.ev_destinationChainId := Py.be_value w2 |}.
Proof.
  intros Ht Hl1 Hl2 Hd Hw1 Hw2 Hb.
  unfold Parser.parse_token_locked_event. rewrite Ht, Hd. cbn [lookup list_lookup].
  assert (Hslice : forall t, Py.slice_from 26 (Py.hexbytes_hex true t)
                             = Py.bytes_hex (drop 12 t)).
  { intros t. change (Py.slice_from 26 (Py.hexbytes_hex true t))
      with (Py.slice_from (2 * 12) (Py.bytes_hex t)). apply slice_from_bytes_hex. }
  rewrite !Hslice.
  rewrite <- app_comm_cons, lstrip_prefix_only by done. rewrite app_comm_cons.
  assert (H1 : Py.slice 0 64 (Py.bytes_hex ((b :: w1) ++ w2)) = Py.bytes_hex (b :: w1)).
  { change (Py.slice 0 64 (Py.bytes_hex ((b :: w1) ++ w2)))
      with (Py.slice_to (2 * 32) (Py.bytes_hex ((b :: w1) ++ w2))).
    rewrite <- Hw1. apply slice_to_bytes_hex. }
  assert (H2 : Py.slice 64 128 (Py.bytes_hex ((b :: w1) ++ w2)) = Py.bytes_hex w2).
  { change (Py.slice 64 128 (Py.bytes_hex ((b :: w1) ++ w2)))
      with (Py.slice_to (2 * 32) (Py.slice_from (2 * 32) (Py.bytes_hex ((b :: w1) ++ w2)))).
    rewrite slice_from_bytes_hex.
    replace (drop 32 ((b :: w1) ++ w2)) with w2
      by (rewrite <- Hw1; symmetry; apply drop_app_length).
    rewrite <- Hw2. rewrite <- (app_nil_r w2) at 2. apply slice_to_bytes_hex. }
  rewrite H1, H2.
  rewrite !int_of_digits_bytes_hex; [done| |done].
  intros ->. discriminate Hw2.
Qed.

Lemma decoder_on_full_width_amount_witness :
  let log := locked_log 0xabcdef 60 (2 ^ 255 + 7) 5 in
  let w1 := word32 (2 ^ 255 + 7) in
  Parser.parse_token_locked_event true log =
  Some {| Parser.ev_transactionHash := Py.hexbytes_hex true (Parser.transactionHash log);
          Parser.ev_blockNumber := Parser.blockNumber log;
          Parser.ev_user :=
            ("0x" ++ Py.bytes_hex (drop 12 (word32 0x1111111111111111111111111111111111111111)))%string;
          Parser.ev_token :=
            ("0x" ++ Py.bytes_hex (drop 12 (word32 0x2222222222222222222222222222222222222222)))%string;
          Parser.ev_amount := Py.be_value (hd Byte.x00 w1 :: tl w1);
          Parser.ev_destinationChainId := Py.be_value (word32 5) |}.
Proof.
  intros log w1.
  apply (decoder_on_full_width_amount log (word32 0x70c3)
           (word32 0x1111111111111111111111111111111111111111)
           (word32 0x2222222222222222222222222222222222222222)
           [] (hd Byte.x00 w1) (tl w1) (word32 5));
    try reflexivity.
  vm_compute. discriminate.
Defined.

(* ===================================================================== *)
(** ** The data words as lists of digits *)
(* ===================================================================== *)

Lemma nibbles_cons b bs :
  nibbles (b :: bs) = (Byte.to_N b / 16)%N :: (Byte.to_N b mod 16)%N :: nibbles bs.
Proof. reflexivity. Qed.

Lemma bytes_hex_digits bs : Py.bytes_hex bs = digits_string (nibbles bs).
Proof.
  induction bs as [|b bs IH]; [done|].
  rewrite bytes_hex_cons, nibbles_cons, IH. reflexivity.
Qed.

Lemma nibbles_app bs1 bs2 : nibbles (bs1 ++ bs2) = nibbles bs1 ++ nibbles bs2.
Proof. unfold nibbles. apply flat_map_app. Qed.

Lemma nibbles_length bs : length (nibbles bs) = (2 * length bs)%nat.
Proof.
  induction bs as [|b bs IH]; [done|].
  rewrite nibbles_cons. cbn [length]. rewrite IH. lia.
Qed.

Lemma nibbles_small bs : Forall (fun n => (n < 16)%N) (nibbles bs).
Proof.
  induction bs as [|b bs IH]; [constructor|].
  pose proof (byte_to_N_bound b).
  rewrite nibbles_cons. repeat constructor; try done.
  - apply N.Div0.div_lt_upper_bound. lia.
  - apply N.mod_lt. lia.
Qed.

Lemma slice_from_digits k : forall ns,
  Py.slice_from k (digits_string ns) = digits_string (drop k ns).
Proof. induction k as [|k IH]; intros [|n ns]; try done. apply IH. Qed.

Lemma slice_to_digits k : forall ns,
  Py.slice_to k (digits_string ns) = digits_string (take k ns).
Proof.
  induction k as [|k IH]; intros [|n ns]; try done.
  cbn. by rewrite IH.
Qed.

(** Among the sixteen digits only ['0'] belongs to the set ['0x']. *)
Lemma nibble_char_stripped n :
  (n < 16)%N -> Py.ascii_in (Py.nibble_char n) "0x" = (n =? 0)%N.
Proof.
  intros Hn. destruct n as [|p]; [reflexivity|].
  do 4 (try destruct p as [p|p|]); try reflexivity; exfalso; lia.
Qed.

Lemma lstrip_digits ns :
  Forall (fun n => (n < 16)%N) ns ->
  Py.lstrip "0x" (digits_string ns) = digits_string (strip_zeros ns).
Proof.
  induction 1 as [|n ns Hn _ IH]; [done|].
  cbn [digits_string fold_right Py.lstrip strip_zeros].
  rewrite (nibble_char_stripped n Hn).
  by destruct (n =? 0)%N.
Qed.

(** With or without the prefix, [lstrip('0x')] leaves the digits of the
    payload without their leading zeros. *)
Lemma lstrip_hexbytes prefixed bs :
  Py.lstrip "0x" (Py.hexbytes_hex prefixed bs) = digits_string (strip_zeros (nibbles bs)).
Proof.
  rewrite <- lstrip_digits by apply nibbles_small.
  rewrite <- bytes_hex_digits. by destruct prefixed.
Qed.

Lemma digits_value_digits ns :
  Forall (fun n => (n < 16)%N) ns ->
  forall acc,
    Py.digits_value 16 acc (digits_string ns) =
    Some (fold_left (fun a n => 16 * a + Z.of_N n) ns acc).
Proof.
  induction 1 as [|n ns Hn _ IH]; intros acc; [done|].
  cbn [digits_string fold_right Py.digits_value fold_left].
  rewrite (digit_value_nibble n Hn).
  replace (Z.of_N n <? 16) with true by (symmetry; apply Z.ltb_lt; lia).
  apply IH.
Qed.

Lemma int_of_digits_digits ns :
  Forall (fun n => (n < 16)%N) ns ->
  Py.int_of_digits 16 (digits_string ns) =
  match ns with [] => None | _ => Some (digits_val ns) end.
Proof.
  intros Hns. destruct ns as [|n ns]; [done|].
  unfold Py.int_of_digits. cbn [digits_string fold_right].
  change (String (Py.nibble_char n) (fold_right (fun n s => String (Py.nibble_char n) s) EmptyString ns))
    with (digits_string (n :: ns)).
  by apply digits_value_digits.
Qed.

Lemma fold_digits_acc ns : forall acc,
  fold_left (fun a n => 16 * a + Z.of_N n) ns acc =
  acc * 16 ^ Z.of_nat (length ns) + digits_val ns.
Proof.
  unfold digits_val.
  induction ns as [|n ns IH]; intros acc; [cbn; lia|].
  cbn [fold_left length]. rewrite IH, (IH (16 * 0 + Z.of_N n)).
  rewrite Nat2Z.inj_succ, Z.pow_succ_r by lia. lia.
Qed.

Lemma digits_val_cons n ns :
  digits_val (n :: ns) = Z.of_N n * 16 ^ Z.of_nat (length ns) + digits_val ns.
Proof. unfold digits_val at 1. cbn [fold_left]. rewrite fold_digits_acc. lia. Qed.

Lemma digits_val_app ns1 ns2 :
  digits_val (ns1 ++ ns2) = digits_val ns1 * 16 ^ Z.of_nat (length ns2) + digits_val ns2.
Proof.
  unfold digits_val at 1. rewrite fold_left_app, fold_digits_acc. reflexivity.
Qed.

Lemma digits_val_nonneg ns : 0 <= digits_val ns.
Proof.
  induction ns as [|n ns IH]; [done|].
  rewrite digits_val_cons.
  assert (0 < 16 ^ Z.of_nat (length ns)) by (apply Z.pow_pos_nonneg; lia).
  nia.
Qed.

Lemma digits_val_zeros z ns : digits_val (repeat 0%N z ++ ns) = digits_val ns.
Proof.
  induction z as [|z IH]; [done|].
  cbn [repeat app]. rewrite digits_val_cons, IH. lia.
Qed.

Lemma be_value_digits bs : Py.be_value bs = digits_val (nibbles bs).
Proof.
  unfold Py.be_value.
  assert (H : forall acc,
             fold_left (fun a b => 256 * a + Z.of_N (Byte.to_N b)) bs acc =
             fold_left (fun a n => 16 * a + Z.of_N n) (nibbles bs) acc);
    [|apply H].
  induction bs as [|b bs IH]; intros acc; [done|].
  rewrite nibbles_cons. cbn [fold_left]. rewrite IH. f_equal.
  pose proof (N.div_mod (Byte.to_N b) 16 ltac:(lia)). lia.
Qed.

(** Stripping removes a block of zeros and stops at a non-zero digit. *)
Lemma strip_zeros_split ns :
  exists z,
    ns = repeat 0%N z ++ strip_zeros ns /\
    match strip_zeros ns with
    | [] => True
    | n :: _ => n <> 0%N
    end.
Proof.
  induction ns as [|n ns (z & Heq & Hhd)]; [by exists 0%nat|].
  cbn [strip_zeros]. destruct (n =? 0)%N eqn:Hn.
  - apply N.eqb_eq in Hn. subst n. exists (S z). split; [|done].
    cbn [repeat app]. by rewrite <- Heq.
  - apply N.eqb_neq in Hn. by exists 0%nat.
Qed.

Lemma strip_zeros_small ns :
  Forall (fun n => (n < 16)%N) ns -> Forall (fun n => (n < 16)%N) (strip_zeros ns).
Proof.
  induction 1 as [|n ns Hn Hns IH]; [constructor|].
  cbn [strip_zeros]. destruct (n =? 0)%N; [done|by constructor].
Qed.

(** The two integers of a decoded event are read from the stripped data
    string. *)
Lemma parse_numbers prefixed log ev :
  Parser.parse_token_locked_event prefixed log = Some ev ->
  Py.int_of_digits 16
    (Py.slice 0 64 (Py.lstrip "0x" (Py.hexbytes_hex prefixed (Parser.data log))))
    = Some (Parser.ev_amount ev) /\
  Py.int_of_digits 16
    (Py.slice 64 128 (Py.lstrip "0x" (Py.hexbytes_hex prefixed (Parser.data log))))
    = Some (Parser.ev_destinationChainId ev).
Proof.
  unfold Parser.parse_token_locked_event.
  repeat case_match; try discriminate.
  by intros [= <-].
Qed.

Lemma digits_val_pos n ns : n <> 0%N -> 0 < digits_val (n :: ns).
Proof.
  intros Hn. rewrite digits_val_cons.
  pose proof (digits_val_nonneg ns).
  assert (0 < 16 ^ Z.of_nat (length ns)) by (apply Z.pow_pos_nonneg; lia).
  nia.
Qed.

(** X4.  The decoder is wrong on every well-formed log whose amount word
    starts with a zero digit (an amount below [2^252]): whenever it
    returns an event, the amount or the chain id differs from the
    big-endian value of its data word. *)
Lemma decoder_wrong_on_padded_amount prefixed log b w1 w2 ev :
  Parser.data log = (b :: w1) ++ w2 ->
  length (b :: w1) = 32%nat -> length w2 = 32%nat ->
  (Byte.to_N b < 16)%N ->
  Parser.parse_token_locked_event prefixed log = Some ev ->
  ~ (Parser.ev_amount ev = Py.be_value (b :: w1) /\
     Parser.ev_destinationChainId ev = Py.be_value w2).
Proof.
  intros Hd Hw1 Hw2 Hb Hparse [Hamount Hchain].
  apply parse_numbers in Hparse as [Ha Hc].
  rewrite lstrip_hexbytes, Hd in Ha, Hc.
  set (ns := nibbles ((b :: w1) ++ w2)) in *.
  set (T := strip_zeros ns) in *.
  assert (HT : Forall (fun n => (n < 16)%N) T) by apply strip_zeros_small, nibbles_small.
  change (Py.slice 0 64 (digits_string T)) with (Py.slice_to 64 (digits_string T)) in Ha.
  change (Py.slice 64 128 (digits_string T))
    with (Py.slice_to 64 (Py.slice_from 64 (digits_string T))) in Hc.
  rewrite slice_to_digits in Ha. rewrite slice_from_digits, slice_to_digits in Hc.
  rewrite int_of_digits_digits in Ha by by apply Forall_take.
  rewrite int_of_digits_digits in Hc by by apply Forall_take, Forall_drop.
  (* the digits: a block of zeros, then [T] *)
  destruct (strip_zeros_split ns) as (z & Hns & Hhd). fold T in Hns, Hhd.
  assert (Hlen : length ns = 128%nat).
  { unfold ns. rewrite nibbles_length, length_app, Hw1, Hw2. done. }
  assert (HlenT : (z + length T = 128)%nat).
  { rewrite <- Hlen, Hns at 1. by rewrite length_app, repeat_length. }
  assert (Hz : (1 <= z)%nat).
  { destruct z as [|z]; [|lia]. exfalso.
    cbn [repeat app] in Hns. rewrite <- Hns in Hhd.
    unfold ns in Hhd. rewrite <- app_comm_cons, nibbles_cons in Hhd.
    apply Hhd. apply N.div_small. lia. }
  (* both slices are non-empty, so fewer than 64 zeros were stripped *)
  destruct (take 64 (drop 64 T)) as [|c0 crest] eqn:HC; [discriminate|].
  assert (Hlong : (64 < length T)%nat).
  { destruct (decide (64 < length T)%nat) as [|Hshort]; [done|].
    rewrite drop_ge in HC by lia. discriminate. }
  rewrite <- HC in Hc. clear c0 crest HC.
  rewrite take_ge in Hc by (rewrite length_drop; lia).
  destruct (take 64 T) as [|a0 arest] eqn:HA; [discriminate|].
  assert (Ha0 : a0 <> 0%N).
  { destruct T as [|t0 T']; [discriminate|]. by injection HA as <- _. }
  injection Ha as Ha. injection Hc as Hc.
  (* the value of all digits, split at digit 64 before and after stripping *)
  assert (Hval : digits_val ns = digits_val T) by (rewrite Hns; apply digits_val_zeros).
  rewrite <- (take_drop 64 T), HA, digits_val_app, Ha, Hc in Hval.
  unfold ns in Hval. rewrite nibbles_app, digits_val_app, <- !be_value_digits in Hval.
  rewrite <- Hamount, <- Hchain in Hval.
  rewrite nibbles_length, Hw2, length_drop in Hval.
  replace (Z.of_nat (2 * 32)) with (Z.of_nat z + Z.of_nat (length T - 64)) in Hval by lia.
  rewrite Z.pow_add_r in Hval by lia.
  assert (HP : 0 < 16 ^ Z.of_nat (length T - 64)) by (apply Z.pow_pos_nonneg; lia).
  assert (HQ : 16 <= 16 ^ Z.of_nat z).
  { replace (Z.of_nat z) with (Z.succ (Z.of_nat (z - 1))) by lia.
    rewrite Z.pow_succ_r by lia.
    assert (0 < 16 ^ Z.of_nat (z - 1)) by (apply Z.pow_pos_nonneg; lia). lia. }
  pose proof (digits_val_pos a0 arest Ha0) as Hpos. rewrite Ha in Hpos.
  nia.
Qed.

Lemma decoder_wrong_on_padded_amount_witness :
  let log := locked_log 0xabcdef 60 1000000 5 in
  let w1 := word32 1000000 in
  exists ev,
    Parser.parse_token_locked_event true log = Some ev /\
    ~ (Parser.ev_amount ev = Py.be_value (hd Byte.x00 w1 :: tl w1) /\
       Parser.ev_destinationChainId ev = Py.be_value (word32 5)).
Proof.
  intros log w1.
  destruct (Parser.parse_token_locked_event true log) as [ev|] eqn:Hparse;
    [|vm_compute in Hparse; discriminate].
  exists ev. split; [reflexivity|].
  apply (decoder_wrong_on_padded_amount true log (hd Byte.x00 w1) (tl w1) (word32 5) ev);
    try reflexivity; exact Hparse.
Defined.

(* ===================================================================== *)
(** ** Further behaviour of the decoder and of the relay result *)
(* ===================================================================== *)

(** X1.  A log with fewer than three topics is a decode failure (the
    [IndexError] is caught and [None] returned), and [_process_log]
    leaves the listener, the file and the calls as they were: nothing is
    submitted and nothing is marked. *)
Theorem short_topics_are_a_decode_failure :
  forall prefixed log,
    (length (Parser.topics log) < 3)%nat ->
    Parser.parse_token_locked_event prefixed log = None /\
    forall w m, hex_prefixed w = prefixed -> _process_log w log m = m.
Proof.
  intros prefixed log Hlen.
  assert (Hnone : Parser.parse_token_locked_event prefixed log = None).
  { unfold Parser.parse_token_locked_event.
    destruct (Parser.topics log) as [|a [|b [|c r]]]; cbn in Hlen |- *; try done; lia. }
  split; [exact Hnone|].
  intros w m <-. unfold _process_log.
  destruct (decide _); [done|]. by rewrite Hnone.
Qed.

Lemma short_topics_are_a_decode_failure_witness :
  let log := {| Parser.transactionHash := word32 0xabcdef;
                Parser.blockNumber := 60;
                Parser.topics := [word32 0x70c3;
                                  word32 0x1111111111111111111111111111111111111111];
                Parser.data := word32 (2 ^ 255) ++ word32 5 |} in
  Parser.parse_token_locked_event true log = None /\
  forall w m, hex_prefixed w = true -> _process_log w log m = m.
Proof.
  intros log.
  apply (short_topics_are_a_decode_failure true log).
  vm_compute. lia.
Defined.

Lemma slice_from_26_hexbytes prefixed t :
  Py.slice_from 26 (Py.hexbytes_hex prefixed t) =
  Py.bytes_hex (drop (if prefixed then 12 else 13) t).
Proof.
  destruct prefixed.
  - change (Py.slice_from 26 (Py.hexbytes_hex true t))
      with (Py.slice_from (2 * 12) (Py.bytes_hex t)). apply slice_from_bytes_hex.
  - change (Py.slice_from 26 (Py.hexbytes_hex false t))
      with (Py.slice_from (2 * 13) (Py.bytes_hex t)). apply slice_from_bytes_hex.
Qed.

(** X2.  Whenever the decoder returns an event, the transaction hash and
    the block number are those of the log, and [user] and [token] are
    ["0x"] followed by the hexadecimal digits of the second and third
    topic without their first 12 bytes when [HexBytes.hex] carries the
    prefix (the lower 20 bytes of a 32-byte topic), and without their
    first 13 bytes when it does not (one byte of the address is lost). *)
Theorem decoded_addresses :
  forall prefixed log ev,
    Parser.parse_token_locked_event prefixed log = Some ev ->
    exists t1 t2,
      Parser.topics log !! 1%nat = Some t1 /\
      Parser.topics log !! 2%nat = Some t2 /\
      Parser.ev_transactionHash ev = Py.hexbytes_hex prefixed (Parser.transactionHash log) /\
      Parser.ev_blockNumber ev = Parser.blockNumber log /\
      Parser.ev_user ev =
        ("0x" ++ Py.bytes_hex (drop (if prefixed then 12 else 13) t1))%string /\
      Parser.ev_token ev =
        ("0x" ++ Py.bytes_hex (drop (if prefixed then 12 else 13) t2))%string.
Proof.
  intros prefixed log ev. unfold Parser.parse_token_locked_event.
  destruct (Parser.topics log !! 1%nat) as [t1|]; [|done].
  destruct (Parser.topics log !! 2%nat) as [t2|]; [|done].
  rewrite !slice_from_26_hexbytes.
  destruct (Py.int_of_digits 16 (Py.slice 0 64 _)) as [amount|]; [|done].
  destruct (Py.int_of_digits 16 (Py.slice 64 128 _)) as [chain|]; [|done].
  intros [= <-]. by exists t1, t2.
Qed.

Lemma decoded_addresses_witness :
  exists t1 t2,
    let log := locked_log 0xabcdef 60 (2 ^ 255) 5 in
    Parser.topics log !! 1%nat = Some t1 /\
    Parser.topics log !! 2%nat = Some t2 /\
    "0000000000000000000000000000000000000000000000000000000000abcdef"
      = Py.hexbytes_hex false (Parser.transactionHash log) /\
    60 = Parser.blockNumber log /\
    "0x11111111111111111111111111111111111111" = ("0x" ++ Py.bytes_hex (drop 13 t1))%string /\
    "0x22222222222222222222222222222222222222" = ("0x" ++ Py.bytes_hex (drop 13 t2))%string.
Proof.
  apply (decoded_addresses false (locked_log 0xabcdef 60 (2 ^ 255) 5)
           {| Parser.ev_transactionHash :=
                "0000000000000000000000000000000000000000000000000000000000abcdef";
              Parser.ev_blockNumber := 60;
              Parser.ev_user := "0x11111111111111111111111111111111111111";
              Parser.ev_token := "0x22222222222222222222222222222222222222";
              Parser.ev_amount := 2 ^ 255;
              Parser.ev_destinationChainId := 5 |}).
  vm_compute. reflexivity.
Defined.

Lemma nibbles_zero_bytes k : nibbles (repeat Byte.x00 k) = repeat 0%N (2 * k).
Proof.
  induction k as [|k IH]; [done|].
  replace (2 * S k)%nat with (S (S (2 * k))) by lia.
  cbn [repeat]. by rewrite nibbles_cons, IH.
Qed.

Lemma strip_zeros_zeros k ns : strip_zeros (repeat 0%N k ++ ns) = strip_zeros ns.
Proof. induction k as [|k IH]; [done|]. exact IH. Qed.

Lemma strip_zeros_length ns : (length (strip_zeros ns) <= length ns)%nat.
Proof.
  induction ns as [|n ns IH]; [done|].
  cbn [strip_zeros]. destruct (n =? 0)%N; cbn [length]; lia.
Qed.

(** X5.  A log whose amount word is zero is a decode failure, whatever
    its topics and its chain word: [lstrip('0x')] removes the 64 zero
    digits of the amount (and the leading zeros of the chain word), the
    slice [data[64:128]] is empty and [int('', 16)] raises the
    [ValueError] that the decoder turns into [None]. *)
Theorem zero_amount_is_a_decode_failure :
  forall prefixed log w2,
    Parser.data log = repeat Byte.x00 32 ++ w2 ->
    (length w2 <= 32)%nat ->
    Parser.parse_token_locked_event prefixed log = None.
Proof.
  intros prefixed log w2 Hd Hw2.
  destruct (Parser.parse_token_locked_event prefixed log) as [ev|] eqn:Hparse; [|done].
  exfalso. apply parse_numbers in Hparse as [_ Hc].
  rewrite lstrip_hexbytes, Hd, nibbles_app, nibbles_zero_bytes, strip_zeros_zeros in Hc.
  change (Py.slice 64 128 (digits_string (strip_zeros (nibbles w2))))
    with (Py.slice_to 64 (Py.slice_from 64 (digits_string (strip_zeros (nibbles w2))))) in Hc.
  rewrite slice_from_digits in Hc.
  rewrite drop_ge in Hc; [discriminate|].
  pose proof (strip_zeros_length (nibbles w2)) as Hle.
  rewrite nibbles_length in Hle. lia.
Qed.

Lemma zero_amount_is_a_decode_failure_witness :
  Parser.parse_token_locked_event true (locked_log 0xabcdef 60 0 137) = None.
Proof.
  apply (zero_amount_is_a_decode_failure true (locked_log 0xabcdef 60 0 137) (word32 137)).
  - reflexivity.
  - vm_compute. lia.
Defined.

(** X6.  [trigger_token_mint] reports success exactly for a response
    with status 200 or 202 whose body decodes as JSON; every other
    status (201 and 204 included) and every transport error is a
    failure. *)
Theorem acknowledged_iff_200_or_202 :
  forall o,
    Relay.acknowledged o = true <->
    exists status, o = Relay.Responded status true /\ (status = 200 \/ status = 202).
Proof.
  intros [status body|]; split.
  - unfold Relay.acknowledged.
    destruct ((400 <=? status) && (status <? 600)) eqn:Herr; [done|].
    destruct ((status =? 200) || (status =? 202)) eqn:Hok; [|done].
    intros ->. exists status. split; [done|].
    apply orb_true_iff in Hok as [H|H]; apply Z.eqb_eq in H; auto.
  - intros (s & [= -> ->] & [-> | ->]); reflexivity.
  - discriminate.
  - intros (s & Heq & _). discriminate.
Qed.

(* ===================================================================== *)
(** ** The calls and the checkpoint of one cycle *)
(* ===================================================================== *)

Section Cycle.

Context (w : World).

(** A cycle asks for the height and then, at most once, for logs; every
    further call is a POST. *)
Lemma cycle_calls m m' :
  cycle w m m' ->
  new_calls m m' = [BlockNumber] \/
  exists h last posts,
    block_number w (length (calls m)) = Height h /\
    lsb m = Some last /\
    last + 1 <= h - CONFIRMATION_BLOCKS /\
    forallb is_post posts = true /\
    new_calls m m' =
      BlockNumber ::
      GetLogs (last + 1) (h - CONFIRMATION_BLOCKS)
              (bridge_contract_address (config (listener m)))
              [event_topic_hash (config (listener m))] :: posts.
Proof.
  intros [Hab|h last Hh Hl Hgt|h last logs m2 Hh Hl Hle Hg].
  - left. by apply new_calls_app.
  - left. by apply new_calls_app.
  - right. exists h, last.
    apply get_logs_machine in Hg. subst m2.
    destruct (process_logs_calls w logs
                (record_call (GetLogs (last + 1) (h - CONFIRMATION_BLOCKS)
                   (bridge_contract_address (config (listener m)))
                   [event_topic_hash (config (listener m))])
                   (record_call BlockNumber m))) as (posts & Hc & Hp).
    exists posts. repeat split; try done.
    apply new_calls_app. cbn [set_last_scanned_block with_listener calls].
    rewrite Hc. cbn [record_call calls]. by rewrite <- !app_assoc.
Qed.

Lemma cycle_file m m' : cycle w m m' -> file m' = file m.
Proof.
  intros [Hab|h last Hh Hl Hgt|h last logs m2 Hh Hl Hle Hg]; try done.
  apply get_logs_machine in Hg. subst m2.
  cbn [set_last_scanned_block with_listener file].
  by destruct (process_logs_frame w logs
                 (record_call (GetLogs (last + 1) (h - CONFIRMATION_BLOCKS)
                    (bridge_contract_address (config (listener m)))
                    [event_topic_hash (config (listener m))])
                    (record_call BlockNumber m))) as (-> & _).
Qed.

Lemma cycle_config m m' : cycle w m m' -> config (listener m') = config (listener m).
Proof.
  intros [Hab|h last Hh Hl Hgt|h last logs m2 Hh Hl Hle Hg]; try done.
  apply get_logs_machine in Hg. subst m2.
  cbn [set_last_scanned_block with_listener listener config].
  by destruct (process_logs_frame w logs
                 (record_call (GetLogs (last + 1) (h - CONFIRMATION_BLOCKS)
                    (bridge_contract_address (config (listener m)))
                    [event_topic_hash (config (listener m))])
                    (record_call BlockNumber m))) as (_ & -> & _).
Qed.

(** The checkpoint block after a cycle: unchanged, or the confirmed
    height when there was a range to scan. *)
Lemma cycle_lsb m m' :
  cycle w m m' ->
  lsb m' = lsb m \/
  exists h last,
    block_number w (length (calls m)) = Height h /\ lsb m = Some last /\
    last + 1 <= h - CONFIRMATION_BLOCKS /\ lsb m' = Some (h - CONFIRMATION_BLOCKS).
Proof.
  intros [Hab|h last Hh Hl Hgt|h last logs m2 Hh Hl Hle Hg]; try by left.
  right. by exists h, last.
Qed.

Lemma cycle_seen m m' : cycle w m m' -> seen m ⊆ seen m'.
Proof.
  intros [Hab|h last Hh Hl Hgt|h last logs m2 Hh Hl Hle Hg]; try done.
  apply get_logs_machine in Hg. subst m2.
  apply (process_logs_seen w logs
           (record_call (GetLogs (last + 1) (h - CONFIRMATION_BLOCKS)
              (bridge_contract_address (config (listener m)))
              [event_topic_hash (config (listener m))])
              (record_call BlockNumber m))).
Qed.

Lemma lsb_le_refl a : lsb_le a a.
Proof. destruct a; simpl; [lia|done]. Qed.

Lemma lsb_le_trans a b c : lsb_le a b -> lsb_le b c -> lsb_le a c.
Proof. destruct a, b, c; simpl; try done; lia. Qed.

Lemma checkpoint_le_refl m : checkpoint_le m m.
Proof. split; [apply lsb_le_refl|done]. Qed.

Lemma checkpoint_le_trans m1 m2 m3 :
  checkpoint_le m1 m2 -> checkpoint_le m2 m3 -> checkpoint_le m1 m3.
Proof.
  intros [H1 H2] [H3 H4]. split; [by eapply lsb_le_trans|by etrans].
Qed.

Lemma cycle_checkpoint_le m m' : cycle w m m' -> checkpoint_le m m'.
Proof.
  intros Hc. split; [|by apply cycle_seen].
  destruct (cycle_lsb m m' Hc) as [->|(h & last & _ & -> & Hle & ->)];
    [apply lsb_le_refl|simpl; lia].
Qed.

Lemma scan_cycles_checkpoint_le n m : checkpoint_le m (scan_cycles w n m).
Proof.
  revert m. induction n as [|n IH]; intros m; simpl; [apply checkpoint_le_refl|].
  eapply checkpoint_le_trans; [|apply IH].
  apply cycle_checkpoint_le, _scan_blocks_cycle.
Qed.

Lemma scan_cycles_file n m : file (scan_cycles w n m) = file m.
Proof.
  revert m. induction n as [|n IH]; intros m; simpl; [done|].
  rewrite IH. apply cycle_file, _scan_blocks_cycle.
Qed.

(** Calls only accumulate. *)
Lemma cycle_calls_app m m' : cycle w m m' -> calls m' = calls m ++ new_calls m m'.
Proof.
  intros Hc. unfold new_calls.
  assert (exists ext, calls m' = calls m ++ ext) as [ext ->].
  { destruct Hc as [Hab|h last Hh Hl Hgt|h last logs m2 Hh Hl Hle Hg]; try by eexists.
    apply get_logs_machine in Hg. subst m2.
    destruct (process_logs_calls w logs
                (record_call (GetLogs (last + 1) (h - CONFIRMATION_BLOCKS)
                   (bridge_contract_address (config (listener m)))
                   [event_topic_hash (config (listener m))])
                   (record_call BlockNumber m))) as (posts & Hc & Hp).
    cbn [set_last_scanned_block with_listener calls]. rewrite Hc.
    cbn [record_call calls]. rewrite <- !app_assoc. by eexists. }
  by rewrite drop_app_length.
Qed.

Lemma scan_cycles_calls_app n m :
  calls (scan_cycles w n m) = calls m ++ new_calls m (scan_cycles w n m).
Proof.
  assert (exists ext, calls (scan_cycles w n m) = calls m ++ ext) as [ext Hext].
  { revert m. induction n as [|n IH]; intros m; simpl.
    - exists []. by rewrite app_nil_r.
    - destruct (IH (_scan_blocks w m)) as [ext ->].
      rewrite (cycle_calls_app m _ (_scan_blocks_cycle w m)), <- app_assoc.
      by eexists. }
  unfold new_calls. rewrite Hext. by rewrite drop_app_length.
Qed.

Lemma new_calls_scan_cycles_S n m :
  new_calls m (scan_cycles w (S n) m) =
  new_calls m (_scan_blocks w m) ++ new_calls (_scan_blocks w m) (scan_cycles w n (_scan_blocks w m)).
Proof.
  simpl. apply new_calls_app.
  rewrite (scan_cycles_calls_app n (_scan_blocks w m)).
  rewrite (cycle_calls_app m _ (_scan_blocks_cycle w m)) at 1.
  by rewrite <- app_assoc.
Qed.

End Cycle.

(* ===================================================================== *)
(** ** Confirmation depth (C5) *)
(* ===================================================================== *)

(** C5.  Whatever the state of the listener and whatever height [h] the
    node reports, the only log request of a cycle is for
    [[last_scanned_block + 1, h - CONFIRMATION_BLOCKS]], made only when
    that range is not empty, so no block above [h - 12] is ever
    requested.  With height 100 and checkpoint 50 the cycle requests
    exactly [[51, 88]]; with height 62 it requests nothing and leaves the
    listener as it was. *)
Theorem scan_requests_confirmed_blocks_only :
  forall w m,
    (forall f t a tp,
        GetLogs f t a tp ∈ new_calls m (_scan_blocks w m) ->
        exists h last,
          block_number w (length (calls m)) = Height h /\
          lsb m = Some last /\
          f = last + 1 /\ t = h - CONFIRMATION_BLOCKS /\ f <= t /\
          forall b, f <= b <= t -> b <= h - 12) /\
    (block_number w (length (calls m)) = Height 100 -> lsb m = Some 50 ->
     exists posts,
       forallb is_post posts = true /\
       new_calls m (_scan_blocks w m) =
         BlockNumber :: GetLogs 51 88 (bridge_contract_address (config (listener m)))
                                [event_topic_hash (config (listener m))] :: posts) /\
    (block_number w (length (calls m)) = Height 62 -> lsb m = Some 50 ->
     _scan_blocks w m = record_call BlockNumber m).
Proof.
  intros w m. split; [|split].
  - intros f t a tp Hin.
    destruct (cycle_calls w m _ (_scan_blocks_cycle w m))
      as [Heq|(h & last & posts & Hh & Hl & Hle & Hp & Heq)];
      rewrite Heq in Hin.
    + apply list_elem_of_singleton in Hin. discriminate.
    + apply elem_of_cons in Hin as [Hin|Hin]; [discriminate|].
      apply elem_of_cons in Hin as [Hin|Hin].
      * injection Hin as -> -> -> ->. exists h, last.
        unfold CONFIRMATION_BLOCKS in *. repeat split; try done; lia.
      * apply list_elem_of_In in Hin.
        rewrite forallb_forall in Hp. apply Hp in Hin. discriminate.
  - intros Hh Hl.
    destruct (cycle_calls w m _ (_scan_blocks_cycle w m))
      as [Heq|(h & last & posts & Hh' & Hl' & Hle & Hp & Heq)].
    + exfalso. revert Heq.
      unfold _scan_blocks, get_latest_block_number. rewrite Hh.
      cbn [listener record_call]. fold (lsb m). rewrite Hl.
      change (50 + 1 >? 100 - CONFIRMATION_BLOCKS) with false. cbv iota.
      destruct (get_logs _ _ _ _ _ _) as [logs m2] eqn:Hg.
      apply get_logs_machine in Hg. subst m2.
      destruct (process_logs_calls w logs
                  (record_call (GetLogs (50 + 1) (100 - CONFIRMATION_BLOCKS)
                     (bridge_contract_address (config (listener m)))
                     [event_topic_hash (config (listener m))])
                     (record_call BlockNumber m))) as (posts & Hc & Hp).
      unfold new_calls. cbn [set_last_scanned_block with_listener calls].
      rewrite Hc. cbn [record_call calls]. rewrite <- !app_assoc.
      rewrite drop_app_length. discriminate.
    + rewrite Hh in Hh'. injection Hh' as <-.
      rewrite Hl in Hl'. injection Hl' as <-.
      exists posts. by split.
  - intros Hh Hl.
    unfold _scan_blocks, get_latest_block_number. rewrite Hh.
    cbn [listener record_call]. fold (lsb m). by rewrite Hl.
Qed.

Lemma scan_requests_confirmed_blocks_only_witness :
  let w := steady_world (fun _ => 100) [] (fun _ => Relay.Responded 200 true) in
  let w' := steady_world (fun _ => 62) [] (fun _ => Relay.Responded 200 true) in
  (exists posts,
      forallb is_post posts = true /\
      new_calls (machine_at 50) (_scan_blocks w (machine_at 50)) =
        BlockNumber :: GetLogs 51 88 (Some "0xb01d9e") ["0x70c3"] :: posts) /\
  _scan_blocks w' (machine_at 50) = record_call BlockNumber (machine_at 50) /\
  (exists h last,
      block_number w 0%nat = Height h /\ lsb (machine_at 50) = Some last /\
      51 = last + 1 /\ 88 = h - CONFIRMATION_BLOCKS /\ 51 <= 88 /\
      forall b, 51 <= b <= 88 -> b <= h - 12).
Proof.
  intros w w'.
  split; [|split].
  - apply (scan_requests_confirmed_blocks_only w (machine_at 50)); reflexivity.
  - apply (scan_requests_confirmed_blocks_only w' (machine_at 50)); reflexivity.
  - apply (proj1 (scan_requests_confirmed_blocks_only w (machine_at 50))
                 51 88 (Some "0xb01d9e") ["0x70c3"]).
    vm_compute. apply elem_of_cons; right. apply elem_of_cons; by left.
Defined.

(* ===================================================================== *)
(** ** Monotone checkpoint (C7) *)
(* ===================================================================== *)

Lemma log_step_checkpoint_le w log m m' : log_step w log m m' -> checkpoint_le m m'.
Proof.
  intros [|ev o m2 Hn Hp Ho Hc Hf Hcfg Hst Hs]; [apply checkpoint_le_refl|].
  split.
  - unfold lsb. rewrite Hst. apply lsb_le_refl.
  - rewrite Hs. destruct (Relay.acknowledged o); [apply union_subseteq_r|done].
Qed.

Lemma _save_state_listener m : listener (_save_state m).2 = listener m.
Proof. unfold _save_state. by destruct (last_scanned_block _). Qed.

(** C7.  Every operation of the engine ([_process_log], [_scan_blocks],
    any number of cycles, [_save_state], [run]) leaves a checkpoint whose
    [last_scanned_block] is not smaller than before and whose
    [processed_txs] contains every element it had before. *)
Theorem checkpoint_never_regresses :
  forall w : World,
    (forall log m, checkpoint_le m (_process_log w log m)) /\
    (forall m, checkpoint_le m (_scan_blocks w m)) /\
    (forall n m, checkpoint_le m (scan_cycles w n m)) /\
    (forall m, checkpoint_le m (_save_state m).2) /\
    (forall n m, checkpoint_le m (run w n m).2).
Proof.
  intros w.
  assert (Hsave : forall m, checkpoint_le m (_save_state m).2).
  { intros m. unfold checkpoint_le, lsb, seen. rewrite _save_state_listener.
    split; [apply lsb_le_refl|done]. }
  split; [|split; [|split; [|split]]].
  - intros log m. apply (log_step_checkpoint_le w log), _process_log_step.
  - intros m. apply (cycle_checkpoint_le w), _scan_blocks_cycle.
  - apply scan_cycles_checkpoint_le.
  - apply Hsave.
  - intros n m. unfold run.
    eapply checkpoint_le_trans; [apply scan_cycles_checkpoint_le|apply Hsave].
Qed.

(* ===================================================================== *)
(** ** When the checkpoint reaches the state file (C1) *)
(* ===================================================================== *)

Lemma no_write_of_posts posts :
  forallb is_post posts = true ->
  forallb (fun c => negb (is_write c)) posts = true.
Proof.
  rewrite !forallb_forall. intros H c Hc. specialize (H c Hc). by destruct c.
Qed.

Lemma cycle_no_write w m m' :
  cycle w m m' -> forallb (fun c => negb (is_write c)) (new_calls m m') = true.
Proof.
  intros Hc.
  destruct (cycle_calls w m m' Hc) as [->|(h & last & posts & _ & _ & _ & Hp & ->)];
    [done|].
  simpl. by apply no_write_of_posts.
Qed.

Lemma scan_cycles_no_write w n m :
  forallb (fun c => negb (is_write c)) (new_calls m (scan_cycles w n m)) = true.
Proof.
  revert m. induction n as [|n IH]; intros m.
  - unfold new_calls. simpl. by rewrite drop_all.
  - rewrite new_calls_scan_cycles_S, forallb_app, IH, andb_true_r.
    apply (cycle_no_write w), _scan_blocks_cycle.
Qed.

Lemma _save_state_flushes m last :
  lsb m = Some last ->
  (_save_state m).1 = None /\
  checkpoint_on_disk (_save_state m).2 /\
  new_calls m (_save_state m).2 =
    [WriteState {| last_scanned_block := Some last;
                   processed_txs_key := Some (elements (seen m)) |}].
Proof.
  intros Hl. unfold _save_state. fold (lsb m). rewrite Hl. cbn [fst snd].
  split; [done|]. split.
  - exists last, (elements (seen m)). split; [done|]. split; [exact Hl|].
    apply list_to_set_elements_L.
  - by apply new_calls_app.
Qed.

(** C1, as the code has it.  No number of scan cycles touches the state
    file or issues a write; the checkpoint reaches the file once, when
    [run] leaves its loop (the [finally] clause), and then the file holds
    the in-memory checkpoint. *)
Theorem checkpoint_written_when_run_exits :
  forall w n m,
    file (scan_cycles w n m) = file m /\
    forallb (fun c => negb (is_write c)) (new_calls m (scan_cycles w n m)) = true /\
    (is_Some (lsb m) ->
     (run w n m).1 = None /\
     checkpoint_on_disk (run w n m).2 /\
     exists content, new_calls (scan_cycles w n m) (run w n m).2 = [WriteState content]).
Proof.
  intros w n m. split; [apply scan_cycles_file|]. split; [apply scan_cycles_no_write|].
  intros [last Hl].
  destruct (scan_cycles_checkpoint_le w n m) as [Hle _].
  rewrite Hl in Hle. destruct (lsb (scan_cycles w n m)) as [last'|] eqn:Hl'; [|done].
  destruct (_save_state_flushes _ _ Hl') as (H1 & H2 & H3).
  unfold run. repeat split; try done. by eexists.
Qed.

Lemma checkpoint_written_when_run_exits_witness :
  let w := steady_world (fun _ => 100) [] (fun _ => Relay.Responded 200 true) in
  (run w 3 (machine_at 50)).1 = None /\
  checkpoint_on_disk (run w 3 (machine_at 50)).2 /\
  exists content,
    new_calls (scan_cycles w 3 (machine_at 50)) (run w 3 (machine_at 50)).2
    = [WriteState content].
Proof.
  intros w.
  apply (checkpoint_written_when_run_exits w 3 (machine_at 50)).
  by exists 50.
Defined.

(** C1 as stated fails: a completed cycle that advanced the checkpoint to
    88 leaves no state file behind and has issued no write. *)
Lemma completed_cycle_without_flush :
  let w := steady_world (fun _ => 100) [] (fun _ => Relay.Responded 200 true) in
  let m' := _scan_blocks w (machine_at 50) in
  lsb m' = Some 88 /\
  file m' = FileAbsent /\
  forallb (fun c => negb (is_write c)) (calls m') = true /\
  ~ checkpoint_on_disk m'.
Proof.
  intros w m'. repeat split.
  intros (last & txs & Hfile & _). discriminate Hfile.
Qed.

(* ===================================================================== *)
(** ** A failed log fetch (C2) *)
(* ===================================================================== *)

(** C2 fails on the code.  [get_logs] swallows the exception of the
    provider and returns the empty list, so [_scan_blocks] goes on to set
    [last_scanned_block] to the end of the range it could not read. *)
Theorem fetch_failure_advances_checkpoint :
  forall w m h last,
    block_number w (length (calls m)) = Height h ->
    lsb m = Some last ->
    last + 1 <= h - CONFIRMATION_BLOCKS ->
    eth_get_logs w (S (length (calls m))) (last + 1) (h - CONFIRMATION_BLOCKS)
                 (bridge_contract_address (config (listener m)))
                 [event_topic_hash (config (listener m))] = None ->
    lsb (_scan_blocks w m) = Some (h - CONFIRMATION_BLOCKS) /\
    seen (_scan_blocks w m) = seen m /\
    new_calls m (_scan_blocks w m) =
      [BlockNumber;
       GetLogs (last + 1) (h - CONFIRMATION_BLOCKS)
               (bridge_contract_address (config (listener m)))
               [event_topic_hash (config (listener m))]].
Proof.
  intros w m h last Hh Hl Hle Hfail.
  unfold _scan_blocks, get_latest_block_number. rewrite Hh.
  cbn [listener record_call]. fold (lsb m). rewrite Hl.
  replace (last + 1 >? h - CONFIRMATION_BLOCKS) with false by lia.
  unfold get_logs.
  replace (length (calls (record_call BlockNumber m))) with (S (length (calls m)))
    by (cbn [record_call calls]; rewrite length_app; simpl; lia).
  rewrite Hfail. cbn [process_logs].
  repeat split. apply new_calls_app. cbn. by rewrite <- app_assoc.
Qed.

Lemma fetch_failure_advances_checkpoint_witness :
  let w := failing_fetch_world (fun _ => 100) in
  lsb (_scan_blocks w (machine_at 50)) = Some 88 /\
  seen (_scan_blocks w (machine_at 50)) = seen (machine_at 50) /\
  new_calls (machine_at 50) (_scan_blocks w (machine_at 50)) =
    [BlockNumber; GetLogs 51 88 (Some "0xb01d9e") ["0x70c3"]].
Proof.
  intros w.
  apply (fetch_failure_advances_checkpoint w (machine_at 50) 100 50);
    [reflexivity | reflexivity | vm_compute; discriminate | reflexivity].
Defined.

(** After the failed fetch of [[51, 88]] the next cycle asks for
    [[89, 90]]: the unread range is not requested again. *)
Example fetch_failure_range_skipped :
  calls (scan_cycles (failing_fetch_world (fun k => 100 + Z.of_nat k)) 2 (machine_at 50)) =
  [BlockNumber; GetLogs 51 88 (Some "0xb01d9e") ["0x70c3"];
   BlockNumber; GetLogs 89 90 (Some "0xb01d9e") ["0x70c3"]].
Proof. reflexivity. Qed.

(* ===================================================================== *)
(** ** A failed relay submission (C3) *)
(* ===================================================================== *)

Lemma cycle_request_from w m m' f t a tp :
  cycle w m m' ->
  GetLogs f t a tp ∈ new_calls m m' ->
  exists last, lsb m = Some last /\ f = last + 1.
Proof.
  intros Hc Hin.
  destruct (cycle_calls w m m' Hc) as [Heq|(h & last & posts & _ & Hl & _ & Hp & Heq)];
    rewrite Heq in Hin.
  - apply list_elem_of_singleton in Hin. discriminate.
  - apply elem_of_cons in Hin as [Hin|Hin]; [discriminate|].
    apply elem_of_cons in Hin as [Hin|Hin].
    + injection Hin as -> _ _ _. by exists last.
    + apply list_elem_of_In in Hin.
      rewrite forallb_forall in Hp. apply Hp in Hin. discriminate.
Qed.

(** Log requests only move forward: from a checkpoint [b] on, every
    request starts above [b]. *)
Lemma later_requests_above w n :
  forall m b f t a tp,
    lsb m = Some b ->
    GetLogs f t a tp ∈ new_calls m (scan_cycles w n m) ->
    b < f.
Proof.
  induction n as [|n IH]; intros m b f t a tp Hl Hin.
  - unfold new_calls in Hin. simpl in Hin. rewrite drop_all in Hin.
    by apply elem_of_nil in Hin.
  - rewrite new_calls_scan_cycles_S in Hin. apply elem_of_app in Hin as [Hin|Hin].
    + destruct (cycle_request_from w m _ f t a tp (_scan_blocks_cycle w m) Hin)
        as (last & Hl' & ->).
      rewrite Hl in Hl'. injection Hl' as <-. lia.
    + destruct (cycle_checkpoint_le w m _ (_scan_blocks_cycle w m)) as [Hle _].
      rewrite Hl in Hle.
      destruct (lsb (_scan_blocks w m)) as [b'|] eqn:Hl'; [|done].
      simpl in Hle. specialize (IH _ b' f t a tp Hl' Hin). lia.
Qed.

(** A submission that is not acknowledged leaves [processed_txs] as it
    was. *)
Lemma failed_submission_not_marked w log m ev :
  Parser.parse_token_locked_event (hex_prefixed w) log = Some ev ->
  Relay.acknowledged (post w (length (calls m))
                        (relayer_api_endpoint (config (listener m)))
                        (Relay.payload_of ev)) = false ->
  seen (_process_log w log m) = seen m.
Proof.
  intros Hp Hfail. unfold _process_log.
  destruct (decide _); [done|]. rewrite Hp.
  unfold trigger_token_mint. by rewrite Hfail.
Qed.

(** C3 fails on the code.  A cycle that had a range to scan sets the
    checkpoint to the end of that range whatever the relayer answered,
    and no later cycle requests a block of that range again: an event
    whose submission failed is not fetched a second time. *)
Theorem scanned_range_never_requested_again :
  forall w m h last,
    block_number w (length (calls m)) = Height h ->
    lsb m = Some last ->
    last + 1 <= h - CONFIRMATION_BLOCKS ->
    lsb (_scan_blocks w m) = Some (h - CONFIRMATION_BLOCKS) /\
    forall n f t a tp,
      GetLogs f t a tp ∈ new_calls (_scan_blocks w m) (scan_cycles w n (_scan_blocks w m)) ->
      h - CONFIRMATION_BLOCKS < f.
Proof.
  intros w m h last Hh Hl Hle.
  assert (Hadv : lsb (_scan_blocks w m) = Some (h - CONFIRMATION_BLOCKS)).
  { unfold _scan_blocks, get_latest_block_number. rewrite Hh.
    cbn [listener record_call]. fold (lsb m). rewrite Hl.
    replace (last + 1 >? h - CONFIRMATION_BLOCKS) with false by lia.
    by destruct (get_logs _ _ _ _ _ _). }
  split; [exact Hadv|].
  intros n f t a tp Hin. by eapply later_requests_above.
Qed.

Lemma scanned_range_never_requested_again_witness :
  lsb (_scan_blocks flaky_relay_world (machine_at 50)) = Some (100 - CONFIRMATION_BLOCKS) /\
  forall n f t a tp,
    GetLogs f t a tp ∈ new_calls (_scan_blocks flaky_relay_world (machine_at 50))
                                  (scan_cycles flaky_relay_world n
                                     (_scan_blocks flaky_relay_world (machine_at 50))) ->
    100 - CONFIRMATION_BLOCKS < f.
Proof.
  apply (scanned_range_never_requested_again flaky_relay_world (machine_at 50) 100 50);
    [reflexivity | reflexivity | vm_compute; discriminate].
Defined.

(** In that world the event is submitted once, in the first cycle, and
    five cycles later it is still neither processed nor submitted again,
    although the relayer would have accepted it. *)
Example failed_event_not_retried :
  let tx := "0x0000000000000000000000000000000000000000000000000000000000abcdef" in
  let m := scan_cycles flaky_relay_world 6 (machine_at 50) in
  submissions tx (calls m) = 1%nat /\
  bool_decide (tx ∈ seen m) = false /\
  List.filter (fun c => match c with GetLogs _ _ _ _ => true | _ => false end) (calls m) =
    [GetLogs 51 88 (Some "0xb01d9e") ["0x70c3"];
     GetLogs 89 91 (Some "0xb01d9e") ["0x70c3"];
     GetLogs 92 93 (Some "0xb01d9e") ["0x70c3"];
     GetLogs 94 95 (Some "0xb01d9e") ["0x70c3"];
     GetLogs 96 97 (Some "0xb01d9e") ["0x70c3"];
     GetLogs 98 99 (Some "0xb01d9e") ["0x70c3"]].
Proof. vm_compute. repeat split. Qed.

(* ===================================================================== *)
(** ** Duplicate transaction ids (C6) *)
(* ===================================================================== *)

Lemma no_resubmission_snoc cs c :
  no_resubmission cs ->
  (forall c0 tx, c0 ∈ cs -> acked_tx c0 = Some tx -> posted_tx c <> Some tx) ->
  no_resubmission (cs ++ [c]).
Proof.
  intros Hcs Hc before c1 after tx Heq Hack c' Hin.
  destruct after as [|x after' _] using rev_ind; [by apply elem_of_nil in Hin|].
  change (before ++ c1 :: after' ++ [x]) with (before ++ (c1 :: after') ++ [x]) in Heq.
  rewrite app_assoc in Heq. apply app_inj_tail in Heq as [-> <-].
  apply elem_of_app in Hin as [Hin|Hin].
  - by eapply Hcs.
  - apply list_elem_of_singleton in Hin. subst c'.
    apply (Hc c1); [|done].
    apply elem_of_app. right. by left.
Qed.

Lemma acked_posted c tx : acked_tx c = Some tx -> posted_tx c = Some tx.
Proof. destruct c; simpl; try done. by case_match. Qed.

(** The invariant survives any call appended under the conditions that
    [_process_log] checks before it submits. *)
Lemma dedup_inv_snoc old m m' c :
  dedup_inv old m ->
  calls m' = calls m ++ [c] ->
  seen m ⊆ seen m' ->
  (forall tx, posted_tx c = Some tx -> tx ∉ seen m) ->
  (forall tx, acked_tx c = Some tx -> tx ∈ seen m') ->
  dedup_inv old m'.
Proof.
  intros (Hack & Hno & Hold & Hpost) Hc Hsub Hfresh Hmark.
  unfold dedup_inv. rewrite Hc. split; [|split; [|split]].
  - intros c0 tx Hin Ha. apply elem_of_app in Hin as [Hin|Hin].
    + apply Hsub. by eapply Hack.
    + apply list_elem_of_singleton in Hin. subst c0. by apply Hmark.
  - apply no_resubmission_snoc; [done|].
    intros c0 tx Hin Ha Hp. apply (Hfresh tx Hp). by eapply Hack.
  - by etrans.
  - intros c0 tx Hin Hp. apply elem_of_app in Hin as [Hin|Hin].
    + by eapply Hpost.
    + apply list_elem_of_singleton in Hin. subst c0.
      intros Hin. apply (Hfresh tx Hp). by apply Hold.
Qed.

Lemma dedup_inv_record old m c :
  posted_tx c = None -> dedup_inv old m -> dedup_inv old (record_call c m).
Proof.
  intros Hc Hinv. apply (dedup_inv_snoc old m _ c); try done.
  - intros tx. by rewrite Hc.
  - intros tx Ha. apply acked_posted in Ha. by rewrite Hc in Ha.
Qed.

Lemma dedup_inv_log_step old w log m m' :
  log_step w log m m' -> dedup_inv old m -> dedup_inv old m'.
Proof.
  intros [|ev o m2 Hn Hp Ho Hc Hf Hcfg Hst Hs] Hinv; [done|].
  apply parse_transactionHash in Hp. fold (tx_of w log) in Hp.
  eapply dedup_inv_snoc; [exact Hinv|exact Hc|..].
  - rewrite Hs. destruct (Relay.acknowledged o); [apply union_subseteq_r|done].
  - simpl. rewrite Hp. by intros tx [= <-].
  - simpl. rewrite Hs, Hp. destruct (Relay.acknowledged o); [|done].
    intros tx [= <-]. apply elem_of_union_l. by apply elem_of_singleton.
Qed.

Lemma dedup_inv_process_logs old w logs m :
  dedup_inv old m -> dedup_inv old (process_logs w logs m).
Proof.
  apply (process_logs_ind w (fun a b => dedup_inv old a -> dedup_inv old b)).
  - done.
  - intros ??? H1 H2 H. by apply H2, H1.
  - intros ???. apply dedup_inv_log_step.
Qed.

Lemma dedup_inv_cycle old w m m' : cycle w m m' -> dedup_inv old m -> dedup_inv old m'.
Proof.
  intros [Hab|h last Hh Hl Hgt|h last logs m2 Hh Hl Hle Hg] Hinv;
    try by apply dedup_inv_record.
  apply get_logs_machine in Hg. subst m2.
  change (dedup_inv old (process_logs w logs
            (record_call (GetLogs (last + 1) (h - CONFIRMATION_BLOCKS)
               (bridge_contract_address (config (listener m)))
               [event_topic_hash (config (listener m))])
               (record_call BlockNumber m)))).
  apply dedup_inv_process_logs.
  apply dedup_inv_record; [done|]. by apply dedup_inv_record.
Qed.

Lemma dedup_inv_scan_cycles old w n m :
  dedup_inv old m -> dedup_inv old (scan_cycles w n m).
Proof.
  revert m. induction n as [|n IH]; intros m Hinv; simpl; [done|].
  apply IH. apply (dedup_inv_cycle old w m); [apply _scan_blocks_cycle|done].
Qed.

Lemma dedup_inv_save old m : dedup_inv old m -> dedup_inv old (_save_state m).2.
Proof.
  intros Hinv. unfold _save_state.
  destruct (last_scanned_block _) as [last|]; [|done].
  by apply (dedup_inv_snoc old m _ (WriteState
              {| last_scanned_block := Some last;
                 processed_txs_key := Some (elements (processed_txs (listener m))) |})).
Qed.

Lemma dedup_inv_start m :
  forallb (fun c => negb (is_post c)) (calls m) = true -> dedup_inv (seen m) m.
Proof.
  rewrite forallb_forall. intros Hnone.
  assert (Hp : forall c tx, c ∈ calls m -> posted_tx c = Some tx -> False).
  { intros c tx Hin Hp. apply list_elem_of_In, Hnone in Hin. by destruct c. }
  split; [|split; [|split]].
  - intros c tx Hin Ha. exfalso. eapply Hp; [done|]. by apply acked_posted.
  - intros before c after tx Heq Ha. exfalso.
    apply (Hp c tx); [|by apply acked_posted].
    rewrite Heq. apply elem_of_app. right. by left.
  - done.
  - intros c tx Hin Hpost _. by eapply Hp.
Qed.

(** C6, as the code has it.  In a run that starts before any submission,
    whatever logs the node returns and whatever the relayer answers: no
    submission for a transaction id follows an acknowledged submission
    for it, and no submission at all is made for an id that was already
    in [processed_txs] at the start. *)
Theorem acknowledged_tx_never_resubmitted :
  forall w n m,
    forallb (fun c => negb (is_post c)) (calls m) = true ->
    no_resubmission (calls (run w n m).2) /\
    forall tx, tx ∈ seen m -> submissions tx (calls (run w n m).2) = 0%nat.
Proof.
  intros w n m Hstart.
  destruct (dedup_inv_save _ _ (dedup_inv_scan_cycles _ w n m (dedup_inv_start m Hstart)))
    as (_ & Hno & _ & Hold).
  split; [exact Hno|].
  intros tx Htx. unfold submissions.
  destruct (filter _ _) as [|c rest] eqn:Hf; [done|].
  assert (Hc : c ∈ filter (fun c => posted_tx c = Some tx) (calls (run w n m).2))
    by (rewrite Hf; by left).
  apply list_elem_of_filter in Hc as [Hp Hin].
  by destruct (Hold c tx Hin Hp).
Qed.

Lemma acknowledged_tx_never_resubmitted_witness :
  no_resubmission (calls (run duplicate_log_world 3 (machine_at 50)).2) /\
  forall tx, tx ∈ seen (machine_at 50) ->
             submissions tx (calls (run duplicate_log_world 3 (machine_at 50)).2) = 0%nat.
Proof.
  apply (acknowledged_tx_never_resubmitted duplicate_log_world 3 (machine_at 50)).
  reflexivity.
Defined.

(** C6 as stated fails: the transaction id occurs twice among the logs
    of one cycle and the relayer is called twice for it. *)
Lemma duplicate_tx_submitted_twice :
  let tx := "0x0000000000000000000000000000000000000000000000000000000000abcdef" in
  let m := _scan_blocks duplicate_log_world (machine_at 50) in
  submissions tx (calls m) = 2%nat /\ ~ (submissions tx (calls m) <= 1)%nat.
Proof. vm_compute. split; [reflexivity|lia]. Qed.

(* ===================================================================== *)
(** ** The decoder (C4) *)
(* ===================================================================== *)

(** C4 fails on the code.  A well-formed log (three 32-byte topics, two
    32-byte data words) whose amount word holds 1 and whose chain word
    holds 5 is decoded with amount [16^63]: [lstrip('0x')] strips the
    leading zero digits of the amount word together with the prefix, so
    the 64-digit slices no longer line up with the words.  This is so
    with and without the "0x" prefix of [HexBytes.hex]. *)
Theorem decoder_misreads_padded_amount :
  forall prefixed,
    let log := locked_log 0xabcdef 60 1 5 in
    length (Parser.topics log) = 3%nat /\
    length (Parser.data log) = 64%nat /\
    Py.be_value (take 32 (Parser.data log)) = 1 /\
    Py.be_value (drop 32 (Parser.data log)) = 5 /\
    Parser.ev_amount <$> Parser.parse_token_locked_event prefixed log = Some (16 ^ 63).
Proof. intros []; vm_compute; repeat split. Qed.

(** With a zero amount the second slice is empty and the decoder reports
    a failure for a well-formed log. *)
Example decoder_rejects_zero_amount :
  Parser.parse_token_locked_event true (locked_log 0xabcdef 60 0 5) = None.
Proof. reflexivity. Qed.

(** When the amount word has no leading zero digit both words are read
    as big-endian integers. *)
Example decoder_reads_full_width_amount :
  Parser.parse_token_locked_event true (locked_log 0xabcdef 60 (2 ^ 255 + 7) 5) =
  Some {| Parser.ev_transactionHash :=
            "0x0000000000000000000000000000000000000000000000000000000000abcdef";
          Parser.ev_blockNumber := 60;
          Parser.ev_user := "0x1111111111111111111111111111111111111111";
          Parser.ev_token := "0x2222222222222222222222222222222222222222";
          Parser.ev_amount := 2 ^ 255 + 7;
          Parser.ev_destinationChainId := 5 |}.
Proof. reflexivity. Qed.

(* ===================================================================== *)
(** ** Start-up (C8, C9, C10) *)
(* ===================================================================== *)

Lemma getenv_default_absent env key dflt :
  getenv env key = None -> getenv_default env key dflt = dflt.
Proof. unfold getenv, getenv_default. by intros ->. Qed.

(** Without the RPC URL or without the contract address, [main] does
    not construct the listener. *)
Lemma missing_url_or_address_rejected env w f n :
  getenv env "SOURCE_CHAIN_RPC_URL" = None \/ getenv env "BRIDGE_CONTRACT_ADDRESS" = None ->
  main env w f n = ConfigRejected \/ main env w f n = Uncaught Py.ValueError.
Proof.
  intros H. unfold main.
  destruct (Py.int _); [left|by right].
  cbn [rpc_url bridge_contract_address event_topic_hash].
  destruct H as [-> | ->]; simpl; [done|].
  by rewrite andb_false_r.
Qed.

(** C8 fails on the code for the event topic hash: [os.getenv] is given
    the default ['0x123...'], so the validation never sees the variable
    as missing and the loop is entered with the placeholder topic. *)
Theorem missing_topic_hash_enters_loop :
  forall env w d n,
    getenv env "TOKENS_LOCKED_EVENT_HASH" = None ->
    Py.truthy (getenv env "SOURCE_CHAIN_RPC_URL") = true ->
    Py.truthy (getenv env "BRIDGE_CONTRACT_ADDRESS") = true ->
    getenv env "START_BLOCK" = None ->
    is_connected w = true ->
    exists m r,
      main env w (FileObject d) n = Looped m r /\
      event_topic_hash (config (listener m)) = "0x123...".
Proof.
  intros env w d n Htopic Hurl Haddr Hstart Hconn.
  unfold main.
  rewrite (getenv_default_absent _ _ _ Htopic), (getenv_default_absent _ _ _ Hstart).
  change (Py.int "0") with (Some 0).
  cbn [rpc_url bridge_contract_address event_topic_hash].
  rewrite Hurl, Haddr. cbn [Py.truthy andb negb].
  unfold init. rewrite Hconn. cbn.
  eexists _, _. split; reflexivity.
Qed.

Lemma missing_topic_hash_enters_loop_witness :
  let w := steady_world (fun _ => 100) [] (fun _ => Relay.Responded 200 true) in
  let d := {| last_scanned_block := Some 50; processed_txs_key := Some [] |} in
  exists m r,
    main env_without_topic w (FileObject d) 1 = Looped m r /\
    event_topic_hash (config (listener m)) = "0x123...".
Proof.
  intros w d.
  apply (missing_topic_hash_enters_loop env_without_topic w d 1); reflexivity.
Defined.

(** The fallback of [_load_state]: with no [start_block] key in the
    config, a cold start begins at the height of the chain. *)
Lemma _load_state_falls_back_to_height w cfg m h :
  file m = FileAbsent ->
  start_block cfg = None ->
  block_number w (length (calls m)) = Height h ->
  (_load_state w cfg m).1 =
    inr {| last_scanned_block := Some h; processed_txs_key := Some [] |}.
Proof.
  intros Hf Hs Hh. unfold _load_state, get_latest_block_number.
  by rewrite Hf, Hh, Hs.
Qed.

(** C9 fails on the code.  [main] always puts [start_block] in the
    config, as [int(os.getenv('START_BLOCK', '0'))], so a cold start
    without START_BLOCK begins at block 0, whatever height the node
    reports; the fallback of [_load_state] is never taken. *)
Theorem cold_start_without_start_block_begins_at_zero :
  forall env w n h,
    getenv env "START_BLOCK" = None ->
    Py.truthy (getenv env "SOURCE_CHAIN_RPC_URL") = true ->
    Py.truthy (getenv env "BRIDGE_CONTRACT_ADDRESS") = true ->
    Py.truthy (Some (getenv_default env "TOKENS_LOCKED_EVENT_HASH" "0x123...")) = true ->
    is_connected w = true ->
    block_number w 1%nat = Height h ->
    exists m r,
      main env w FileAbsent n = Looped m r /\
      lsb m = Some 0 /\
      calls m = [Connect (getenv env "SOURCE_CHAIN_RPC_URL"); BlockNumber].
Proof.
  intros env w n h Hstart Hurl Haddr Htopic Hconn Hh.
  unfold main. rewrite (getenv_default_absent _ _ _ Hstart).
  change (Py.int "0") with (Some 0).
  cbn [rpc_url bridge_contract_address event_topic_hash].
  rewrite Hurl, Haddr, Htopic. cbn [andb negb].
  unfold init. rewrite Hconn. cbn [negb].
  unfold _load_state, get_latest_block_number. cbn [file calls length].
  rewrite Hh. cbn.
  eexists _, _. repeat split.
Qed.

Lemma cold_start_without_start_block_begins_at_zero_witness :
  let w := steady_world (fun _ => 1000) [] (fun _ => Relay.Responded 200 true) in
  exists m r,
    main env_without_start_block w FileAbsent 0 = Looped m r /\
    lsb m = Some 0 /\
    calls m = [Connect (getenv env_without_start_block "SOURCE_CHAIN_RPC_URL"); BlockNumber].
Proof.
  intros w.
  apply (cold_start_without_start_block_begins_at_zero env_without_start_block w 0 1000);
    reflexivity.
Defined.

(** *** A state file without the [processed_txs] key (C10) *)

Ltac open_agree H :=
  match type of H with
  | agree ?m ?m' =>
      destruct m as [[? [? ?] ?] ? ?], m' as [[? [? ?] ?] ? ?];
      unfold agree, lsb, seen in H; cbn in H;
      destruct H as (? & ? & ? & ?); simplify_eq
  end.

Lemma agree_process_log w log m m' :
  agree m m' -> agree (_process_log w log m) (_process_log w log m').
Proof.
  intros H. open_agree H.
  unfold _process_log, trigger_token_mint. cbn.
  destruct (decide _); [done|].
  destruct (Parser.parse_token_locked_event _ _); [|done].
  by destruct (Relay.acknowledged _).
Qed.

Lemma agree_process_logs w logs :
  forall m m', agree m m' -> agree (process_logs w logs m) (process_logs w logs m').
Proof.
  induction logs as [|log rest IH]; intros m m' H; simpl; [done|].
  by apply IH, agree_process_log.
Qed.

Lemma agree_record_call c m m' :
  agree m m' -> agree (record_call c m) (record_call c m').
Proof. intros H. open_agree H. done. Qed.

Lemma agree_set_last_scanned_block b m m' :
  agree m m' -> agree (set_last_scanned_block b m) (set_last_scanned_block b m').
Proof. intros H. open_agree H. done. Qed.

Lemma agree_scan_blocks w m m' :
  agree m m' -> agree (_scan_blocks w m) (_scan_blocks w m').
Proof.
  intros H.
  pose proof H as (Hcfg & Hl & _ & Hcalls).
  pose proof (agree_record_call BlockNumber m m' H) as H1.
  unfold _scan_blocks, get_latest_block_number, get_logs.
  rewrite <- Hcalls.
  destruct (block_number w (length (calls m))); cbn [listener record_call]; try done.
  fold (lsb m) (lsb m'). rewrite <- Hl, <- Hcfg.
  destruct (lsb m) as [last|]; [|done].
  destruct (_ >? _); [done|].
  fold (record_call BlockNumber m) (record_call BlockNumber m').
  replace (calls (record_call BlockNumber m')) with (calls (record_call BlockNumber m))
    by apply H1.
  destruct (eth_get_logs _ _ _ _ _ _) as [logs|];
    by apply agree_set_last_scanned_block, agree_process_logs, agree_record_call.
Qed.

Lemma agree_scan_cycles w n :
  forall m m', agree m m' -> agree (scan_cycles w n m) (scan_cycles w n m').
Proof.
  induction n as [|n IH]; intros m m' H; simpl; [done|].
  by apply IH, agree_scan_blocks.
Qed.

Lemma agree_save_state m m' :
  agree m m' ->
  (_save_state m).1 = (_save_state m').1 /\ agree (_save_state m).2 (_save_state m').2.
Proof.
  intros H. open_agree H. unfold _save_state. cbn.
  by case_match.
Qed.

(** C10.  When the state file is a JSON object without the
    [processed_txs] key, the constructor succeeds, keeps the loaded dict
    as its state and starts with an empty set of processed transactions;
    from there every run makes the same calls, ends with the same
    checkpoint and raises the same exception (if any) as a run started
    from the same file with ["processed_txs": []]. *)
Theorem state_file_without_processed_txs_key :
  forall w cfg d,
    is_connected w = true ->
    processed_txs_key d = None ->
    exists m m',
      init w cfg (FileObject d) = inr m /\
      state (listener m) = d /\
      seen m = ∅ /\
      init w cfg (FileObject {| last_scanned_block := last_scanned_block d;
                                processed_txs_key := Some [] |}) = inr m' /\
      forall n,
        (run w n m).1 = (run w n m').1 /\
        agree (run w n m).2 (run w n m').2.
Proof.
  intros w cfg d Hconn Hkey.
  unfold init. rewrite Hconn. cbn [negb _load_state file].
  eexists _, _. split; [reflexivity|]. split; [reflexivity|].
  split; [unfold seen; cbn; by rewrite Hkey|].
  split; [reflexivity|].
  intros n. unfold run. apply agree_save_state, agree_scan_cycles.
  unfold agree, lsb, seen. cbn. by rewrite Hkey.
Qed.

Lemma state_file_without_processed_txs_key_witness :
  let w := steady_world (fun _ => 100) [locked_log 0xabcdef 60 (2 ^ 255) 5]
                        (fun _ => Relay.Responded 200 true) in
  let d := {| last_scanned_block := Some 50; processed_txs_key := None |} in
  exists m m',
    init w cfg0 (FileObject d) = inr m /\
    state (listener m) = d /\
    seen m = ∅ /\
    init w cfg0 (FileObject {| last_scanned_block := last_scanned_block d;
                               processed_txs_key := Some [] |}) = inr m' /\
    forall n,
      (run w n m).1 = (run w n m').1 /\
      agree (run w n m).2 (run w n m').2.
Proof.
  intros w d.
  apply (state_file_without_processed_txs_key w cfg0 d); reflexivity.
Defined.

(** With that file the first cycle scans [[51, 88]] and relays the event
    found there. *)
Example start_without_processed_txs_key_runs :
  let w := steady_world (fun _ => 100) [locked_log 0xabcdef 60 (2 ^ 255) 5]
                        (fun _ => Relay.Responded 200 true) in
  let d := {| last_scanned_block := Some 50; processed_txs_key := None |} in
  match init w cfg0 (FileObject d) with
  | inr m =>
      (run w 1 m).1 = None /\
      lsb (run w 1 m).2 = Some 88 /\
      elements (seen (run w 1 m).2) =
        ["0x0000000000000000000000000000000000000000000000000000000000abcdef"]
  | inl _ => False
  end.
Proof. vm_compute. repeat split. Qed.

(* ===================================================================== *)
(** ** Dispatch of the logs of one cycle *)
(* ===================================================================== *)

(** A decodable, unprocessed log whose submission is acknowledged gets
    its transaction id marked. *)
Lemma process_log_marks w log m ev :
  Parser.parse_token_locked_event (hex_prefixed w) log = Some ev ->
  tx_of w log ∉ seen m ->
  Relay.acknowledged
    (post w (length (calls m)) (relayer_api_endpoint (config (listener m)))
          (Relay.payload_of ev)) = true ->
  tx_of w log ∈ seen (_process_log w log m).
Proof.
  intros Hp Hnew Hack.
  unfold _process_log. fold (tx_of w log).
  destruct (decide _) as [|_]; [done|]. rewrite Hp.
  unfold trigger_token_mint. rewrite Hack.
  unfold seen. cbn. apply elem_of_union_l. by apply elem_of_singleton.
Qed.

(** X7.  A log that decodes, whose transaction id is not yet processed
    and whose submission the relayer acknowledges is submitted with one
    POST and its id is added to [processed_txs]; processing afterwards
    any log with the same transaction id changes nothing (no second
    POST). *)
Theorem acknowledged_log_is_marked_once :
  forall w log m ev,
    Parser.parse_token_locked_event (hex_prefixed w) log = Some ev ->
    tx_of w log ∉ seen m ->
    Relay.acknowledged
      (post w (length (calls m)) (relayer_api_endpoint (config (listener m)))
            (Relay.payload_of ev)) = true ->
    tx_of w log ∈ seen (_process_log w log m) /\
    new_calls m (_process_log w log m) =
      [Post (relayer_api_endpoint (config (listener m))) (Relay.payload_of ev)
            (post w (length (calls m)) (relayer_api_endpoint (config (listener m)))
                  (Relay.payload_of ev))] /\
    forall log',
      tx_of w log' = tx_of w log ->
      _process_log w log' (_process_log w log m) = _process_log w log m.
Proof.
  intros w log m ev Hp Hnew Hack.
  pose proof (process_log_marks w log m ev Hp Hnew Hack) as Hin.
  split; [exact Hin|]. split.
  - unfold _process_log. fold (tx_of w log).
    destruct (decide _) as [|_]; [done|]. rewrite Hp.
    unfold trigger_token_mint. rewrite Hack. by apply new_calls_app.
  - intros log' Htx. unfold _process_log at 1. fold (tx_of w log'). rewrite Htx.
    fold (seen (_process_log w log m)). by destruct (decide _).
Qed.

Lemma acknowledged_log_is_marked_once_witness :
  let w := steady_world (fun _ => 100) [] (fun _ => Relay.Responded 202 true) in
  let log := locked_log 0xabcdef 60 (2 ^ 255) 5 in
  let m := machine_at 50 in
  exists ev,
    tx_of w log ∈ seen (_process_log w log m) /\
    new_calls m (_process_log w log m) =
      [Post (relayer_api_endpoint (config (listener m))) (Relay.payload_of ev)
            (post w (length (calls m)) (relayer_api_endpoint (config (listener m)))
                  (Relay.payload_of ev))] /\
    forall log',
      tx_of w log' = tx_of w log ->
      _process_log w log' (_process_log w log m) = _process_log w log m.
Proof.
  intros w log m.
  destruct (Parser.parse_token_locked_event (hex_prefixed w) log) as [ev|] eqn:Hp;
    [|vm_compute in Hp; discriminate].
  exists ev.
  apply (acknowledged_log_is_marked_once w log m ev Hp); [|reflexivity].
  unfold seen, m. cbn. apply not_elem_of_empty.
Defined.

Lemma process_logs_calls_app w logs m :
  calls (process_logs w logs m) = calls m ++ new_calls m (process_logs w logs m).
Proof.
  destruct (process_logs_calls w logs m) as (posts & Hc & _).
  by rewrite (new_calls_app _ _ _ Hc).
Qed.

Lemma new_calls_process_logs_cons w log rest m :
  new_calls m (process_logs w (log :: rest) m) =
  new_calls m (_process_log w log m) ++
  new_calls (_process_log w log m) (process_logs w rest (_process_log w log m)).
Proof.
  cbn [process_logs]. apply new_calls_app.
  rewrite (process_logs_calls_app w rest (_process_log w log m)).
  rewrite (process_logs_calls_app w [log] m) at 1. cbn [process_logs].
  by rewrite <- app_assoc.
Qed.

(** The calls of [_process_log]: none, or one POST for the transaction
    id of the log. *)
Lemma _process_log_calls w log m :
  new_calls m (_process_log w log m) = [] \/
  exists ep p o,
    new_calls m (_process_log w log m) = [Post ep p o] /\
    Relay.sourceTransactionHash p = tx_of w log.
Proof.
  destruct (_process_log_step w log m) as [|ev o m' Hn Hp Ho Hc Hf Hcfg Hst Hs].
  - left. unfold new_calls. by rewrite drop_all.
  - right. eexists _, _, _. split; [by apply new_calls_app|].
    by apply parse_transactionHash in Hp.
Qed.

(** X8.  The loop over the fetched logs makes nothing but POSTs, at most
    one per log and in the order of the logs: the transaction ids of the
    POSTs form a sublist of the transaction ids of the logs. *)
Theorem one_post_per_log_in_order :
  forall w logs m,
    forallb is_post (new_calls m (process_logs w logs m)) = true /\
    omap posted_tx (new_calls m (process_logs w logs m)) `sublist_of` map (tx_of w) logs.
Proof.
  intros w logs m. split.
  - destruct (process_logs_calls w logs m) as (posts & Hc & Hp).
    by rewrite (new_calls_app _ _ _ Hc).
  - revert m. induction logs as [|log rest IH]; intros m.
    + cbn. unfold new_calls. by rewrite drop_all.
    + rewrite new_calls_process_logs_cons, omap_app. cbn [map].
      destruct (_process_log_calls w log m) as [->|(ep & p & o & -> & Htx)].
      * cbn. apply sublist_cons, IH.
      * cbn. rewrite Htx. apply sublist_skip, IH.
Qed.

(** X9.  With a relayer that acknowledges every submission, every log of
    the batch that decodes has its transaction id in [processed_txs]
    when the loop is over. *)
Theorem healthy_relayer_marks_every_decodable_log :
  forall w,
    (forall k ep p, Relay.acknowledged (post w k ep p) = true) ->
    forall logs m log,
      log ∈ logs ->
      is_Some (Parser.parse_token_locked_event (hex_prefixed w) log) ->
      tx_of w log ∈ seen (process_logs w logs m).
Proof.
  intros w Hack logs. induction logs as [|l rest IH]; intros m log Hin [ev Hp].
  - by apply elem_of_nil in Hin.
  - cbn [process_logs]. apply elem_of_cons in Hin as [<-|Hin]; [|by apply IH].
    apply (process_logs_seen w rest).
    destruct (decide (tx_of w log ∈ seen m)) as [Hold|Hnew].
    + by apply (proj2 (log_step_checkpoint_le w log m _ (_process_log_step w log m))).
    + by apply (process_log_marks w log m ev).
Qed.

Lemma healthy_relayer_marks_every_decodable_log_witness :
  let w := steady_world (fun _ => 100) [] (fun _ => Relay.Responded 200 true) in
  let log := locked_log 0xabcdef 60 (2 ^ 255) 5 in
  tx_of w log ∈ seen (process_logs w [locked_log 0x1234 59 (2 ^ 255) 1; log] (machine_at 50)).
Proof.
  intros w log.
  apply (healthy_relayer_marks_every_decodable_log w).
  - intros k ep p. reflexivity.
  - apply elem_of_cons. right. apply elem_of_cons. by left.
  - vm_compute. eexists. reflexivity.
Defined.

Lemma process_logs_undecodable w logs m :
  Forall (fun log => Parser.parse_token_locked_event (hex_prefixed w) log = None) logs ->
  process_logs w logs m = m.
Proof.
  induction 1 as [|log rest Hlog _ IH]; [done|].
  cbn [process_logs].
  replace (_process_log w log m) with m; [exact IH|].
  unfold _process_log. destruct (decide _); [done|]. by rewrite Hlog.
Qed.

(** X10.  Logs that do not decode are dropped for good: a cycle whose
    fetched logs all fail to decode makes no POST and marks nothing, yet
    sets the checkpoint to the end of the range, so those logs are not
    fetched again. *)
Theorem undecodable_logs_are_dropped :
  forall w m h last logs,
    block_number w (length (calls m)) = Height h ->
    lsb m = Some last ->
    last + 1 <= h - CONFIRMATION_BLOCKS ->
    eth_get_logs w (S (length (calls m))) (last + 1) (h - CONFIRMATION_BLOCKS)
                 (bridge_contract_address (config (listener m)))
                 [event_topic_hash (config (listener m))] = Some logs ->
    Forall (fun log => Parser.parse_token_locked_event (hex_prefixed w) log = None) logs ->
    lsb (_scan_blocks w m) = Some (h - CONFIRMATION_BLOCKS) /\
    seen (_scan_blocks w m) = seen m /\
    new_calls m (_scan_blocks w m) =
      [BlockNumber;
       GetLogs (last + 1) (h - CONFIRMATION_BLOCKS)
               (bridge_contract_address (config (listener m)))
               [event_topic_hash (config (listener m))]].
Proof.
  intros w m h last logs Hh Hl Hle Hlogs Hbad.
  unfold _scan_blocks, get_latest_block_number. rewrite Hh.
  cbn [listener record_call]. fold (lsb m). rewrite Hl.
  replace (last + 1 >? h - CONFIRMATION_BLOCKS) with false by lia.
  unfold get_logs.
  replace (length (calls (record_call BlockNumber m))) with (S (length (calls m)))
    by (cbn [record_call calls]; rewrite length_app; simpl; lia).
  rewrite Hlogs, (process_logs_undecodable w logs _ Hbad).
  repeat split. apply new_calls_app. cbn. by rewrite <- app_assoc.
Qed.

Lemma undecodable_logs_are_dropped_witness :
  let bad := {| Parser.transactionHash := word32 0xabcdef;
                Parser.blockNumber := 60;
                Parser.topics := [word32 0x70c3];
                Parser.data := [] |} in
  let w := steady_world (fun _ => 100) [bad] (fun _ => Relay.Responded 200 true) in
  lsb (_scan_blocks w (machine_at 50)) = Some (100 - CONFIRMATION_BLOCKS) /\
  seen (_scan_blocks w (machine_at 50)) = seen (machine_at 50) /\
  new_calls (machine_at 50) (_scan_blocks w (machine_at 50)) =
    [BlockNumber; GetLogs (50 + 1) (100 - CONFIRMATION_BLOCKS) (Some "0xb01d9e") ["0x70c3"]].
Proof.
  intros bad w.
  apply (undecodable_logs_are_dropped w (machine_at 50) 100 50 [bad]);
    [reflexivity | reflexivity | vm_compute; discriminate | reflexivity |].
  repeat constructor.
Defined.

(* ===================================================================== *)
(** ** Runs of several cycles *)
(* ===================================================================== *)

Lemma requested_ranges_posts posts :
  forallb is_post posts = true -> requested_ranges posts = [].
Proof.
  induction posts as [|c posts IH]; [done|].
  cbn [forallb]. intros [Hc Hp]%andb_true_iff.
  destruct c; try done. cbn. by apply IH.
Qed.

(** The log request of one cycle and the checkpoint it leaves. *)
Lemma cycle_ranges w m m' b :
  cycle w m m' ->
  lsb m = Some b ->
  (requested_ranges (new_calls m m') = [] /\ lsb m' = Some b) \/
  exists t, b + 1 <= t /\
            requested_ranges (new_calls m m') = [(b + 1, t)] /\ lsb m' = Some t.
Proof.
  intros Hc Hb.
  pose proof (cycle_calls w m m' Hc) as Hcalls.
  destruct Hc as [Hab|h last Hh Hl Hgt|h last logs m2 Hh Hl Hle Hg].
  - left. destruct Hcalls as [->|(? & ? & ? & Hh & Hl & _)]; [done|].
    rewrite (Hab _ Hh) in Hl. discriminate.
  - left. destruct Hcalls as [->|(h' & last' & ? & Hh' & Hl' & Hle' & _)]; [done|].
    rewrite Hh in Hh'. injection Hh' as <-. rewrite Hl in Hl'. injection Hl' as <-. lia.
  - right. rewrite Hb in Hl. injection Hl as <-.
    exists (h - CONFIRMATION_BLOCKS). split; [done|]. split; [|done].
    destruct Hcalls as [Heq|(h' & last' & posts & Hh' & Hl' & _ & Hp & ->)].
    + exfalso. apply get_logs_machine in Hg. subst m2.
      destruct (process_logs_calls w logs
                  (record_call (GetLogs (b + 1) (h - CONFIRMATION_BLOCKS)
                     (bridge_contract_address (config (listener m)))
                     [event_topic_hash (config (listener m))])
                     (record_call BlockNumber m))) as (posts & Hc & _).
      revert Heq. unfold new_calls. cbn [set_last_scanned_block with_listener calls].
      rewrite Hc. cbn [record_call calls]. rewrite <- !app_assoc, drop_app_length.
      discriminate.
    + rewrite Hh in Hh'. injection Hh' as <-. rewrite Hb in Hl'. injection Hl' as <-.
      change (requested_ranges (BlockNumber :: GetLogs (b + 1) (h - CONFIRMATION_BLOCKS)
                (bridge_contract_address (config (listener m)))
                [event_topic_hash (config (listener m))] :: posts))
        with ((b + 1, h - CONFIRMATION_BLOCKS) :: requested_ranges posts).
      by rewrite requested_ranges_posts.
Qed.

Lemma contiguous_from_app b rs1 rs2 :
  contiguous_from b rs1 ->
  contiguous_from (last_block b rs1) rs2 ->
  contiguous_from b (rs1 ++ rs2).
Proof.
  revert b. induction rs1 as [|[f t] rs1 IH]; intros b H1 H2; [done|].
  destruct H1 as (Hf & Hft & Hrest). cbn. repeat split; try done.
  by apply IH.
Qed.

Lemma last_block_app b rs1 rs2 :
  last_block b (rs1 ++ rs2) = last_block (last_block b rs1) rs2.
Proof. unfold last_block. apply fold_left_app. Qed.

(** X11.  Across any number of cycles, whatever the node and the relayer
    answer, the requested block ranges are non-empty and follow each
    other without gap or overlap, starting right after the checkpoint the
    run started from; the checkpoint at the end is the end of the last
    requested range. *)
Theorem requested_ranges_are_contiguous :
  forall w n m b,
    lsb m = Some b ->
    contiguous_from b (requested_ranges (new_calls m (scan_cycles w n m))) /\
    lsb (scan_cycles w n m) =
      Some (last_block b (requested_ranges (new_calls m (scan_cycles w n m)))).
Proof.
  intros w n. induction n as [|n IH]; intros m b Hb.
  - unfold new_calls. cbn [scan_cycles]. by rewrite drop_all.
  - rewrite new_calls_scan_cycles_S. unfold requested_ranges. rewrite omap_app.
    fold (requested_ranges (new_calls m (_scan_blocks w m))).
    fold (requested_ranges (new_calls (_scan_blocks w m)
                              (scan_cycles w n (_scan_blocks w m)))).
    cbn [scan_cycles].
    destruct (cycle_ranges w m _ b (_scan_blocks_cycle w m) Hb)
      as [[-> Hb']|(t & Hle & -> & Hb')];
      destruct (IH _ _ Hb') as [Hc Hl].
    + by cbn [app].
    + cbn [app]. split; [|exact Hl]. by repeat split.
Qed.

Lemma requested_ranges_are_contiguous_witness :
  contiguous_from 50
    (requested_ranges (new_calls (machine_at 50) (scan_cycles flaky_relay_world 4 (machine_at 50)))) /\
  lsb (scan_cycles flaky_relay_world 4 (machine_at 50)) =
    Some (last_block 50
            (requested_ranges (new_calls (machine_at 50)
                                 (scan_cycles flaky_relay_world 4 (machine_at 50))))).
Proof.
  apply (requested_ranges_are_contiguous flaky_relay_world 4 (machine_at 50) 50).
  reflexivity.
Defined.

(** Every property of pairs of machines that is reflexive, transitive
    and holds of the four elementary steps of a cycle holds of any
    number of cycles. *)
Lemma scan_cycles_ind w (R : Machine -> Machine -> Prop) :
  (forall m, R m m) ->
  (forall m1 m2 m3, R m1 m2 -> R m2 m3 -> R m1 m3) ->
  (forall log m m', log_step w log m m' -> R m m') ->
  (forall m, R m (record_call BlockNumber m)) ->
  (forall m f t,
      R m (record_call (GetLogs f t (bridge_contract_address (config (listener m)))
                                [event_topic_hash (config (listener m))]) m)) ->
  (forall m b, R m (set_last_scanned_block b m)) ->
  forall n m, R m (scan_cycles w n m).
Proof.
  intros Hrefl Htrans Hlog Hheight Hfetch Hset n.
  induction n as [|n IH]; intros m; cbn [scan_cycles]; [apply Hrefl|].
  eapply Htrans; [|apply IH].
  destruct (_scan_blocks_cycle w m) as [Hab|h last Hh Hl Hgt|h last logs m2 Hh Hl Hle Hg];
    try apply Hheight.
  apply get_logs_machine in Hg. subst m2.
  eapply Htrans; [apply Hheight|].
  eapply Htrans; [apply (Hfetch (record_call BlockNumber m))|].
  eapply Htrans; [|apply Hset].
  apply (process_logs_ind w R Hrefl Htrans Hlog).
Qed.

(** X12.  After any number of cycles [processed_txs] is exactly what it
    was at the start plus the transaction ids of the POSTs that were
    acknowledged in between: nothing is marked without an acknowledged
    submission and every acknowledged submission is marked. *)
Theorem processed_txs_are_the_acknowledged :
  forall w n m tx,
    tx ∈ seen (scan_cycles w n m) <->
    tx ∈ seen m \/
    exists c, c ∈ new_calls m (scan_cycles w n m) /\ acked_tx c = Some tx.
Proof.
  intros w n m.
  assert (H : exists ext,
             calls (scan_cycles w n m) = calls m ++ ext /\
             forall tx, tx ∈ seen (scan_cycles w n m) <->
                        tx ∈ seen m \/ exists c, c ∈ ext /\ acked_tx c = Some tx).
  { apply (scan_cycles_ind w (fun a b =>
             exists ext, calls b = calls a ++ ext /\
               forall tx, tx ∈ seen b <->
                          tx ∈ seen a \/ exists c, c ∈ ext /\ acked_tx c = Some tx)).
    - intros a. exists []. split; [by rewrite app_nil_r|].
      intros tx. split; [by left|]. intros [|(c & Hc & _)]; [done|].
      by apply elem_of_nil in Hc.
    - intros a b c (e1 & Hc1 & H1) (e2 & Hc2 & H2). exists (e1 ++ e2).
      split; [by rewrite Hc2, Hc1, app_assoc|].
      intros tx. rewrite H2, H1. split.
      * intros [[?|(c0 & ? & ?)]|(c0 & ? & ?)]; [by left|right..];
          exists c0; rewrite elem_of_app; auto.
      * intros [?|(c0 & [?|?]%elem_of_app & ?)];
          [left; by left | left; right; by exists c0 | right; by exists c0].
    - intros log a b0 [|ev o b Hn Hp Ho Hc Hf Hcfg Hst Hs].
      + exists []. split; [by rewrite app_nil_r|].
        intros tx. split; [by left|]. intros [|(c & Hc & _)]; [done|].
        by apply elem_of_nil in Hc.
      + eexists. split; [exact Hc|].
        apply parse_transactionHash in Hp. fold (tx_of w log) in Hp.
        intros tx. rewrite Hs. setoid_rewrite list_elem_of_singleton.
        destruct (Relay.acknowledged o) eqn:Hack.
        * rewrite elem_of_union, elem_of_singleton. split.
          -- intros [->|]; [right|by left]. eexists. split; [reflexivity|].
             cbn. by rewrite Hack, Hp.
          -- intros [|(c & -> & Hc')]; [by right|]. left.
             cbn in Hc'. rewrite Hack, Hp in Hc'. by injection Hc'.
        * split; [by left|]. intros [|(c & -> & Hc')]; [done|].
          cbn in Hc'. by rewrite Hack in Hc'.
    - intros a. eexists. split; [reflexivity|].
      intros tx. split; [by left|]. intros [|(c & Hc & Ha)]; [done|].
      apply list_elem_of_singleton in Hc. by subst c.
    - intros a f t. eexists. split; [reflexivity|].
      intros tx. split; [by left|]. intros [|(c & Hc & Ha)]; [done|].
      apply list_elem_of_singleton in Hc. by subst c.
    - intros a b. exists []. split; [cbn; by rewrite app_nil_r|].
      intros tx. split; [by left|]. intros [|(c & Hc & _)]; [done|].
      by apply elem_of_nil in Hc. }
  destruct H as (ext & Hc & H). by rewrite (new_calls_app _ _ _ Hc).
Qed.

(** X13.  Cycles never change the configuration, and every call they
    make is a height query, a log request for the configured contract
    address and the single configured topic, or a POST to the configured
    relayer endpoint; in particular no cycle connects anew or writes the
    state file. *)
Theorem cycles_use_the_configuration :
  forall w n m,
    config (listener (scan_cycles w n m)) = config (listener m) /\
    Forall (addressed_by (config (listener m))) (new_calls m (scan_cycles w n m)).
Proof.
  intros w n m.
  assert (H : config (listener (scan_cycles w n m)) = config (listener m) /\
              exists ext, calls (scan_cycles w n m) = calls m ++ ext /\
                          Forall (addressed_by (config (listener m))) ext).
  { apply (scan_cycles_ind w (fun a b =>
             config (listener b) = config (listener a) /\
             exists ext, calls b = calls a ++ ext /\
                         Forall (addressed_by (config (listener a))) ext)).
    - intros a. split; [done|]. exists []. by rewrite app_nil_r.
    - intros a b c (Hab & e1 & Hc1 & H1) (Hbc & e2 & Hc2 & H2).
      split; [congruence|]. exists (e1 ++ e2).
      split; [by rewrite Hc2, Hc1, app_assoc|].
      apply Forall_app. split; [done|]. by rewrite <- Hab.
    - intros log a b0 [|ev o b Hn Hp Ho Hc Hf Hcfg Hst Hs].
      + split; [done|]. exists []. by rewrite app_nil_r.
      + split; [done|]. eexists. split; [exact Hc|]. by repeat constructor.
    - intros a. split; [done|]. eexists. split; [reflexivity|]. by repeat constructor.
    - intros a f t. split; [done|]. eexists. split; [reflexivity|]. by repeat constructor.
    - intros a b. split; [done|]. exists []. cbn. by rewrite app_nil_r. }
  destruct H as (Hcfg & ext & Hc & H). split; [done|].
  by rewrite (new_calls_app _ _ _ Hc).
Qed.

(* ===================================================================== *)
(** ** Cycles that cannot scan *)
(* ===================================================================== *)

Lemma after_height_queries_0 m : after_height_queries 0 m = m.
Proof. destruct m. unfold after_height_queries. cbn. by rewrite app_nil_r. Qed.

Lemma record_call_after_height_queries k m :
  record_call BlockNumber (after_height_queries k m) = after_height_queries (S k) m.
Proof.
  unfold after_height_queries, record_call. cbn [listener file calls repeat].
  f_equal. by rewrite <- app_assoc, <- repeat_cons.
Qed.

(** As long as [_scan_blocks] does nothing but query the height, so do
    any number of cycles. *)
Lemma scan_cycles_idle w n m :
  (forall k, _scan_blocks w (after_height_queries k m)
             = record_call BlockNumber (after_height_queries k m)) ->
  scan_cycles w n m = after_height_queries n m.
Proof.
  intros Hidle.
  assert (H : forall n k, scan_cycles w n (after_height_queries k m)
                          = after_height_queries (k + n) m).
  { clear n. induction n as [|n IH]; intros k; cbn [scan_cycles].
    - by rewrite Nat.add_0_r.
    - rewrite Hidle, record_call_after_height_queries, IH. f_equal. lia. }
  specialize (H n 0%nat). by rewrite after_height_queries_0 in H.
Qed.

(** X14.  With a state dict that has no [last_scanned_block] key (a state
    file written without it), every cycle ends in the [KeyError] that
    [_scan_blocks] catches: whatever the node answers, the cycles only
    query the height and never request logs or submit; on shutdown
    [_save_state] raises [KeyError] before opening the file, which stays
    as it was. *)
Theorem missing_checkpoint_key_stalls_the_listener :
  forall w n m,
    lsb m = None ->
    scan_cycles w n m = after_height_queries n m /\
    run w n m = (Some Py.KeyError, after_height_queries n m).
Proof.
  intros w n m Hl.
  assert (Hs : scan_cycles w n m = after_height_queries n m).
  { apply scan_cycles_idle. intros k.
    unfold _scan_blocks, get_latest_block_number.
    destruct (block_number w _); try done.
    cbn [listener record_call after_height_queries]. fold (lsb m). by rewrite Hl. }
  split; [exact Hs|].
  unfold run. rewrite Hs. unfold _save_state.
  cbn [listener after_height_queries]. fold (lsb m). by rewrite Hl.
Qed.

Lemma missing_checkpoint_key_stalls_the_listener_witness :
  let w := steady_world (fun _ => 100) [locked_log 0xabcdef 60 (2 ^ 255) 5]
                        (fun _ => Relay.Responded 200 true) in
  let m := {| listener := {| config := cfg0;
                             state := {| last_scanned_block := None;
                                         processed_txs_key := Some [] |};
                             processed_txs := ∅ |};
              file := FileObject {| last_scanned_block := None;
                                    processed_txs_key := Some [] |};
              calls := [Connect (rpc_url cfg0)] |} in
  scan_cycles w 3 m = after_height_queries 3 m /\
  run w 3 m = (Some Py.KeyError, after_height_queries 3 m).
Proof.
  intros w m.
  apply (missing_checkpoint_key_stalls_the_listener w 3 m). reflexivity.
Defined.

(** X15.  While the node reports no height above
    [last_scanned_block + CONFIRMATION_BLOCKS] (or fails to report one),
    cycles leave the listener and the file untouched and make no call
    but the height query: no log is requested for unconfirmed blocks and
    the checkpoint stays where it is. *)
Theorem unconfirmed_heights_keep_the_listener_idle :
  forall w n m last,
    lsb m = Some last ->
    (forall k h, block_number w k = Height h -> h - CONFIRMATION_BLOCKS <= last) ->
    scan_cycles w n m = after_height_queries n m.
Proof.
  intros w n m last Hl Hlow.
  apply scan_cycles_idle. intros k.
  unfold _scan_blocks, get_latest_block_number.
  destruct (block_number w _) as [h| |] eqn:Hh; try done.
  cbn [listener record_call after_height_queries]. fold (lsb m). rewrite Hl.
  apply Hlow in Hh.
  by replace (last + 1 >? h - CONFIRMATION_BLOCKS) with true by lia.
Qed.

Lemma unconfirmed_heights_keep_the_listener_idle_witness :
  let w := steady_world (fun _ => 62) [locked_log 0xabcdef 60 (2 ^ 255) 5]
                        (fun _ => Relay.Responded 200 true) in
  scan_cycles w 5 (machine_at 50) = after_height_queries 5 (machine_at 50).
Proof.
  intros w.
  apply (unconfirmed_heights_keep_the_listener_idle w 5 (machine_at 50) 50);
    [reflexivity|].
  intros k h [= <-]. vm_compute. discriminate.
Defined.

(* ===================================================================== *)
(** ** Start-up and restart *)
(* ===================================================================== *)

(** X16.  Restarting from the file that [run] wrote on shutdown gives a
    listener with the checkpoint block and the set of processed
    transactions that the stopped process had in memory, without asking
    the node for its height. *)
Theorem restart_resumes_from_saved_checkpoint :
  forall w n m w' cfg,
    is_Some (lsb m) ->
    is_connected w' = true ->
    exists m',
      init w' cfg (file (run w n m).2) = inr m' /\
      lsb m' = lsb (scan_cycles w n m) /\
      seen m' = seen (scan_cycles w n m) /\
      calls m' = [Connect (rpc_url cfg)].
Proof.
  intros w n m w' cfg [last Hl] Hconn.
  destruct (scan_cycles_checkpoint_le w n m) as [Hle _].
  rewrite Hl in Hle. unfold run, _save_state.
  fold (lsb (scan_cycles w n m)).
  destruct (lsb (scan_cycles w n m)) as [last'|]; [|done].
  cbn [snd file]. unfold init. rewrite Hconn. cbn [negb _load_state file].
  eexists. split; [reflexivity|].
  split; [done|]. split; [|done].
  unfold seen at 1. cbn. apply list_to_set_elements_L.
Qed.

Lemma restart_resumes_from_saved_checkpoint_witness :
  let w := steady_world (fun _ => 100) [locked_log 0xabcdef 60 (2 ^ 255) 5]
                        (fun _ => Relay.Responded 200 true) in
  exists m',
    init w cfg0 (file (run w 2 (machine_at 50)).2) = inr m' /\
    lsb m' = lsb (scan_cycles w 2 (machine_at 50)) /\
    seen m' = seen (scan_cycles w 2 (machine_at 50)) /\
    calls m' = [Connect (rpc_url cfg0)].
Proof.
  intros w.
  apply (restart_resumes_from_saved_checkpoint w 2 (machine_at 50) w cfg0);
    [by exists 50 | reflexivity].
Defined.

(** X17.  Where a started listener takes its checkpoint from: an
    existing state file wins (its dict becomes the state and no height
    is queried, whatever [start_block] says); on a cold start the
    configured [start_block] wins over the height of the chain, which is
    queried all the same; a cold start processes nothing yet and creates
    no state file. *)
Theorem startup_checkpoint_precedence :
  forall w cfg,
    is_connected w = true ->
    (forall d, exists m,
        init w cfg (FileObject d) = inr m /\
        state (listener m) = d /\
        seen m = list_to_set (match processed_txs_key d with
                              | Some txs => txs
                              | None => []
                              end) /\
        calls m = [Connect (rpc_url cfg)]) /\
    (forall h, block_number w 1%nat = Height h ->
       exists m,
         init w cfg FileAbsent = inr m /\
         lsb m = Some (match start_block cfg with Some b => b | None => h end) /\
         seen m = ∅ /\
         file m = FileAbsent /\
         calls m = [Connect (rpc_url cfg); BlockNumber]).
Proof.
  intros w cfg Hconn. split.
  - intros d. unfold init. rewrite Hconn. cbn [negb _load_state file].
    eexists. by split.
  - intros h Hh. unfold init. rewrite Hconn. cbn [negb].
    unfold _load_state, get_latest_block_number. cbn [file calls length].
    rewrite Hh. eexists. by split.
Qed.

Lemma startup_checkpoint_precedence_witness :
  let w := steady_world (fun _ => 1000) [] (fun _ => Relay.Responded 200 true) in
  (forall d, exists m,
      init w cfg0 (FileObject d) = inr m /\
      state (listener m) = d /\
      seen m = list_to_set (match processed_txs_key d with
                            | Some txs => txs
                            | None => []
                            end) /\
      calls m = [Connect (rpc_url cfg0)]) /\
  (forall h, block_number w 1%nat = Height h ->
     exists m,
       init w cfg0 FileAbsent = inr m /\
       lsb m = Some (match start_block cfg0 with Some b => b | None => h end) /\
       seen m = ∅ /\
       file m = FileAbsent /\
       calls m = [Connect (rpc_url cfg0); BlockNumber]).
Proof.
  intros w. apply (startup_checkpoint_precedence w cfg0). reflexivity.
Defined.



(* ===================================================================== *)
(** ** The outcomes of [main] *)
(* ===================================================================== *)


Lemma init_config w cfg f m : init w cfg f = inr m -> config (listener m) = cfg.
Proof.
  unfold init. destruct (negb (is_connected w)); [discriminate|].
  destruct (_load_state w cfg _) as [[e|st] m1]; [discriminate|].
  by intros [= <-].
Qed.



(** X21.  When [main] starts the loop, the listener was constructed with
    the configuration read from the environment: the RPC URL and the
    contract address are present and non-empty, the topic is not the
    empty string, [start_block] is the integer value of START_BLOCK (0
    when absent), and the result is that of [run] on the constructed
    listener. *)
Theorem loop_starts_with_environment_config :
  forall env w f n m r,
    main env w f n = Looped m r ->
    Py.truthy (getenv env "SOURCE_CHAIN_RPC_URL") = true /\
    Py.truthy (getenv env "BRIDGE_CONTRACT_ADDRESS") = true /\
    rpc_url (config (listener m)) = getenv env "SOURCE_CHAIN_RPC_URL" /\
    bridge_contract_address (config (listener m)) = getenv env "BRIDGE_CONTRACT_ADDRESS" /\
    event_topic_hash (config (listener m))
      = getenv_default env "TOKENS_LOCKED_EVENT_HASH" "0x123..." /\
    event_topic_hash (config (listener m)) <> EmptyString /\
    relayer_api_endpoint (config (listener m))
      = getenv_default env "RELAYER_API_ENDPOINT" "https://api.example-relayer.com/submit" /\
    Py.int (getenv_default env "START_BLOCK" "0") = start_block (config (listener m)) /\
    is_Some (start_block (config (listener m))) /\
    init w (config (listener m)) f = inr m /\
    r = run w n m.
Proof.
  intros env w f n m r. unfold main.
  destruct (Py.int _) as [sb|]; [|discriminate].
  cbn [rpc_url bridge_contract_address event_topic_hash].
  destruct (Py.truthy (getenv env "SOURCE_CHAIN_RPC_URL")); [|discriminate].
  destruct (Py.truthy (getenv env "BRIDGE_CONTRACT_ADDRESS")); [|discriminate].
  destruct (Py.truthy (Some _)) eqn:Htopic; [|discriminate].
  cbn [andb negb].
  destruct (init w _ f) as [e|m0] eqn:Hinit; [discriminate|].
  intros [= <- <-].
  pose proof (init_config _ _ _ _ Hinit) as Hcfg. rewrite Hcfg. cbn.
  repeat split; try done.
  intros Hempty. by rewrite Hempty in Htopic.
Qed.

Lemma loop_starts_with_environment_config_witness :
  let w := steady_world (fun _ => 1000) [] (fun _ => Relay.Responded 200 true) in
  exists m r,
    main env_without_start_block w FileAbsent 2 = Looped m r /\
    Py.truthy (getenv env_without_start_block "SOURCE_CHAIN_RPC_URL") = true /\
    Py.truthy (getenv env_without_start_block "BRIDGE_CONTRACT_ADDRESS") = true /\
    rpc_url (config (listener m)) = getenv env_without_start_block "SOURCE_CHAIN_RPC_URL" /\
    bridge_contract_address (config (listener m))
      = getenv env_without_start_block "BRIDGE_CONTRACT_ADDRESS" /\
    event_topic_hash (config (listener m))
      = getenv_default env_without_start_block "TOKENS_LOCKED_EVENT_HASH" "0x123..." /\
    event_topic_hash (config (listener m)) <> EmptyString /\
    relayer_api_endpoint (config (listener m))
      = getenv_default env_without_start_block "RELAYER_API_ENDPOINT"
                       "https://api.example-relayer.com/submit" /\
    Py.int (getenv_default env_without_start_block "START_BLOCK" "0")
      = start_block (config (listener m)) /\
    is_Some (start_block (config (listener m))) /\
    init w (config (listener m)) FileAbsent = inr m /\
    r = run w 2 m.
Proof.
  intros w.
  destruct (main env_without_start_block w FileAbsent 2) as [| |m r] eqn:Hmain;
    [vm_compute in Hmain; discriminate.. |].
  exists m, r. split; [reflexivity|].
  exact (loop_starts_with_environment_config env_without_start_block w FileAbsent 2 m r Hmain).
Defined.

(* ===================================================================== *)
(** ** Further round trips and counts *)
(* ===================================================================== *)

(** X22.  Loading a state file and saving it again keeps the checkpoint
    block and the same transaction ids, each listed once: duplicates in
    the file are merged by the [set] built at start-up. *)
Theorem load_then_save_normalises :
  forall w cfg b txs,
    is_connected w = true ->
    exists m txs',
      init w cfg (FileObject {| last_scanned_block := Some b;
                                processed_txs_key := Some txs |}) = inr m /\
      run w 0 m = (None, {| listener := listener m;
                            file := FileObject {| last_scanned_block := Some b;
                                                  processed_txs_key := Some txs' |};
                            calls := calls m ++
                                     [WriteState {| last_scanned_block := Some b;
                                                    processed_txs_key := Some txs' |}] |}) /\
      NoDup txs' /\
      forall tx, tx ∈ txs' <-> tx ∈ txs.
Proof.
  intros w cfg b txs Hconn.
  unfold init. rewrite Hconn. cbn [negb _load_state file].
  eexists _, _. split; [reflexivity|]. split; [reflexivity|].
  cbn [with_listener listener processed_txs processed_txs_key].
  split; [apply NoDup_elements|].
  intros tx. rewrite elem_of_elements. apply elem_of_list_to_set.
Qed.

Lemma load_then_save_normalises_witness :
  let w := steady_world (fun _ => 100) [] (fun _ => Relay.Responded 200 true) in
  exists m txs',
    init w cfg0 (FileObject {| last_scanned_block := Some 88;
                               processed_txs_key := Some ["0xaa"; "0xbb"; "0xaa"] |}) = inr m /\
    run w 0 m = (None, {| listener := listener m;
                          file := FileObject {| last_scanned_block := Some 88;
                                                processed_txs_key := Some txs' |};
                          calls := calls m ++
                                   [WriteState {| last_scanned_block := Some 88;
                                                  processed_txs_key := Some txs' |}] |}) /\
    NoDup txs' /\
    forall tx, tx ∈ txs' <-> tx ∈ ["0xaa"; "0xbb"; "0xaa"].
Proof.
  intros w.
  apply (load_then_save_normalises w cfg0 88 ["0xaa"; "0xbb"; "0xaa"]). reflexivity.
Defined.

Lemma filter_height_query_posts posts :
  forallb is_post posts = true -> List.filter is_height_query posts = [].
Proof.
  induction posts as [|c posts IH]; [done|].
  cbn [forallb]. intros [Hc Hp]%andb_true_iff.
  destruct c; try done. cbn. by apply IH.
Qed.

(** X23.  Every cycle asks the node for its height exactly once and for
    logs at most once: after [n] cycles there are [n] new height queries
    and at most [n] new log requests. *)
Theorem one_height_query_per_cycle :
  forall w n m,
    length (List.filter is_height_query (new_calls m (scan_cycles w n m))) = n /\
    (length (requested_ranges (new_calls m (scan_cycles w n m))) <= n)%nat.
Proof.
  intros w n. induction n as [|n IH]; intros m.
  - unfold new_calls. cbn [scan_cycles]. by rewrite drop_all.
  - rewrite new_calls_scan_cycles_S, List.filter_app.
    unfold requested_ranges. rewrite omap_app, !length_app.
    fold (requested_ranges (new_calls m (_scan_blocks w m))).
    fold (requested_ranges (new_calls (_scan_blocks w m)
                              (scan_cycles w n (_scan_blocks w m)))).
    destruct (IH (_scan_blocks w m)) as [-> Hle].
    destruct (cycle_calls w m _ (_scan_blocks_cycle w m))
      as [->|(h & last & posts & _ & _ & _ & Hp & ->)].
    + cbn. split; lia.
    + change (requested_ranges (BlockNumber :: GetLogs (last + 1) (h - CONFIRMATION_BLOCKS)
                (bridge_contract_address (config (listener m)))
                [event_topic_hash (config (listener m))] :: posts))
        with ((last + 1, h - CONFIRMATION_BLOCKS) :: requested_ranges posts).
      rewrite (requested_ranges_posts _ Hp).
      cbn [List.filter is_height_query]. rewrite (filter_height_query_posts _ Hp).
      cbn. split; lia.
Qed.

(** X24.  The decoder returns an event exactly when the log has at least
    three topics and the data, once its leading zero digits are removed,
    still has more than 64 hexadecimal digits (so that [data[64:128]] is
    not empty); the content of the topics plays no part. *)
Theorem decoder_succeeds_iff :
  forall prefixed log,
    is_Some (Parser.parse_token_locked_event prefixed log) <->
    (3 <= length (Parser.topics log))%nat /\
    (64 < length (strip_zeros (nibbles (Parser.data log))))%nat.
Proof.
  intros prefixed log. unfold Parser.parse_token_locked_event.
  rewrite lstrip_hexbytes.
  set (T := strip_zeros (nibbles (Parser.data log))).
  assert (HT : Forall (fun n => (n < 16)%N) T) by apply strip_zeros_small, nibbles_small.
  change (Py.slice 0 64 (digits_string T)) with (Py.slice_to 64 (digits_string T)).
  change (Py.slice 64 128 (digits_string T))
    with (Py.slice_to 64 (Py.slice_from 64 (digits_string T))).
  rewrite slice_from_digits, !slice_to_digits.
  rewrite !int_of_digits_digits by (try apply Forall_take; try apply Forall_drop; done).
  destruct (Parser.topics log !! 1%nat) as [t1|] eqn:H1.
  2:{ apply lookup_ge_None in H1. split; [by intros [? ?]|lia]. }
  destruct (Parser.topics log !! 2%nat) as [t2|] eqn:H2.
  2:{ apply lookup_ge_None in H2. split; [by intros [? ?]|lia]. }
  apply lookup_lt_Some in H2.
  destruct (take 64 T) as [|a0 arest] eqn:HA.
  { apply (f_equal length) in HA. rewrite length_take in HA. cbn [length] in HA.
    split; [by intros [? ?]|lia]. }
  destruct (take 64 (drop 64 T)) as [|c0 crest] eqn:HC.
  { apply (f_equal length) in HC. rewrite length_take, length_drop in HC. cbn [length] in HC.
    split; [by intros [? ?]|lia]. }
  apply (f_equal length) in HC. rewrite length_take, length_drop in HC. cbn [length] in HC.
  split; [intros _; lia|by eexists].
Qed.
